(** * A model of the stabilizer-rank simulator (necstar)

    The simulator's engine is not part of the sources at hand (only its
    Python tests are), so the state-level operations below are modelled
    from the specification.  A stabilizer term is modelled by the vector
    its tableau stands for (the "represented vector" of the spec, §3), and
    amplitudes are exact complex numbers over the reals.  Circuits, gates
    and Pauli strings are the data transfer objects of the public surface. *)

From Stdlib Require Import Reals Lra Lia List Bool Arith ZArith Permutation.
From Stdlib Require Strings.String Strings.Ascii.
Import ListNotations.

Open Scope R_scope.

(** ** Complex amplitudes *)

Record C := mkC { re : R; im : R }.

Definition C0 : C := mkC 0 0.
Definition C1 : C := mkC 1 0.
Definition Ci : C := mkC 0 1.
Definition RtoC (r : R) : C := mkC r 0.
Definition Cadd (a b : C) : C := mkC (re a + re b) (im a + im b).
Definition Csub (a b : C) : C := mkC (re a - re b) (im a - im b).
Definition Cmul (a b : C) : C :=
  mkC (re a * re b - im a * im b) (re a * im b + im a * re b).
Definition Copp (a : C) : C := mkC (- re a) (- im a).
Definition Cconj (a : C) : C := mkC (re a) (- im a).
Definition Cscale (r : R) (a : C) : C := mkC (r * re a) (r * im a).
(** squared modulus *)
Definition Cnorm2 (a : C) : R := re a * re a + im a * im a.

(** ** Circuits and gates (the circuit DTO) *)

Inductive gate_name :=
| GH | GX | GY | GZ | GS | GSDG | GSX | GSXDG | GCX | GCZ | GSWAP | GT | GTDG.

Record QuantumGate := { name : gate_name; qubits : list nat }.

Record QuantumCircuit := { num_qubits : nat; gates : list QuantumGate }.

Definition is_t_type (g : QuantumGate) : bool :=
  match name g with GT | GTDG => true | _ => false end.

Definition count_t (gs : list QuantumGate) : nat :=
  length (filter is_t_type gs).

(** operand count of each canonical gate (§6) *)
Definition arity (g : gate_name) : nat :=
  match g with GCX | GCZ | GSWAP => 2 | _ => 1 end.

Inductive error := ValueError | OverflowError.

Inductive result (A : Type) := Ok (a : A) | Err (e : error).
Arguments Ok {A} a.
Arguments Err {A} e.

(** ** Vectors over the computational basis

    Index [x] of a vector on [n] qubits is a number below [2^n] whose bit
    [q] is the value of qubit [q] (qubit 0 is the least significant bit). *)

Definition vec := nat -> C.

Definition bit (x q : nat) : bool := Nat.testbit x q.
Definition clear_bit (x q : nat) : nat := if bit x q then (x - 2 ^ q)%nat else x.
Definition set_bit (x q : nat) : nat := if bit x q then x else (x + 2 ^ q)%nat.
Definition flip_bit (x q : nat) : nat :=
  if bit x q then (x - 2 ^ q)%nat else (x + 2 ^ q)%nat.

(** a one-qubit operator as its 2x2 matrix *)
Record M2 := { m00 : C; m01 : C; m10 : C; m11 : C }.

Definition apply1 (m : M2) (a : nat) (v : vec) : vec :=
  fun x =>
    let v0 := v (clear_bit x a) in
    let v1 := v (set_bit x a) in
    if bit x a then Cadd (Cmul (m10 m) v0) (Cmul (m11 m) v1)
    else Cadd (Cmul (m00 m) v0) (Cmul (m01 m) v1).

Definition inv_sqrt2 : R := / sqrt 2.

Definition mat_H : M2 :=
  {| m00 := RtoC inv_sqrt2; m01 := RtoC inv_sqrt2;
     m10 := RtoC inv_sqrt2; m11 := RtoC (- inv_sqrt2) |}.
Definition mat_X : M2 := {| m00 := C0; m01 := C1; m10 := C1; m11 := C0 |}.
Definition mat_Y : M2 := {| m00 := C0; m01 := Copp Ci; m10 := Ci; m11 := C0 |}.
Definition mat_Z : M2 := {| m00 := C1; m01 := C0; m10 := C0; m11 := Copp C1 |}.
Definition mat_S : M2 := {| m00 := C1; m01 := C0; m10 := C0; m11 := Ci |}.
Definition mat_SDG : M2 := {| m00 := C1; m01 := C0; m10 := C0; m11 := Copp Ci |}.

Definition apply_cx (c t : nat) (v : vec) : vec :=
  fun x => if bit x c then v (flip_bit x t) else v x.

Definition swap_bits (x a b : nat) : nat :=
  if Bool.eqb (bit x a) (bit x b) then x else flip_bit (flip_bit x a) b.

Definition apply_swap (a b : nat) (v : vec) : vec := fun x => v (swap_bits x a b).

(** Modelled from the spec: the Clifford gate actions of the tableau
    (§4.2), on the vector a tableau stands for: SX is H·S·H, SXDG is
    H·SDG·H and CZ(c,t) is H on t · CX · H on t. *)
Definition apply_clifford (g : gate_name) (qs : list nat) (v : vec) : vec :=
  match g, qs with
  | GH, [a] => apply1 mat_H a v
  | GX, [a] => apply1 mat_X a v
  | GY, [a] => apply1 mat_Y a v
  | GZ, [a] => apply1 mat_Z a v
  | GS, [a] => apply1 mat_S a v
  | GSDG, [a] => apply1 mat_SDG a v
  | GSX, [a] => apply1 mat_H a (apply1 mat_S a (apply1 mat_H a v))
  | GSXDG, [a] => apply1 mat_H a (apply1 mat_SDG a (apply1 mat_H a v))
  | GCX, [c; t] => apply_cx c t v
  | GCZ, [c; t] => apply1 mat_H t (apply_cx c t (apply1 mat_H t v))
  | GSWAP, [a; b] => apply_swap a b v
  | _, _ => v
  end.

(** ** Stabilizer-sum states (§3, §4.3) *)

(** a term: the coefficient c_k and the stabilizer state it multiplies *)
Definition term := (C * vec)%type.

Record QuantumState := { st_num_qubits : nat; st_terms : list term }.

Definition stabilizer_rank (st : QuantumState) : nat := length (st_terms st).

(** ** T-gate injection (§4.4) *)

(** [e^{i pi/4}] *)
Definition omega : C := mkC (sqrt 2 / 2) (sqrt 2 / 2).

(** Modelled from the spec: the pair [(a, b)] of the T-injector (§4.4),
    [a = (1 + e)/2] and [b = (1 - e)/2] with [e = e^{i pi/4}] for T and
    [e^{-i pi/4}] for TDG. *)
Definition t_pair (e : C) : C * C :=
  (Cscale (1 / 2) (Cadd C1 e), Cscale (1 / 2) (Csub C1 e)).

(** Modelled from the spec: the T-injector (§4.4) for
    [T = diag(1, e^{i pi/4})] (and TDG), which is [a I + b Z_q] for the
    pair [(a, b)]: the first copy keeps its vector with multiplier
    [a c_k], the second gets [Z_q] with multiplier [b c_k], both in place
    of the original term.  (The wording of §4.4 also applies [S_q] to the
    second copy; with this pair, [a I + b Z S] is [diag(1, a - i b)] and
    not [T], so the second copy carries [Z_q] alone.) *)
Definition inject_t (e : C) (q : nat) (ts : list term) : list term :=
  flat_map (fun tm : term =>
              let (c, v) := tm in
              let (a, b) := t_pair e in
              [(Cmul a c, v); (Cmul b c, apply1 mat_Z q v)]) ts.

Fixpoint nodupb (l : list nat) : bool :=
  match l with
  | [] => true
  | x :: l' => negb (existsb (Nat.eqb x) l') && nodupb l'
  end.

Definition qubits_in_range (n : nat) (qs : list nat) : bool :=
  forallb (fun q => Nat.ltb q n) qs.

(** Modelled from the spec: one gate of [State::from_circuit] (§4.3);
    operands are validated before the gate acts *)
Definition apply_gate_terms (n : nat) (g : QuantumGate) (ts : list term)
  : result (list term) :=
  if negb (qubits_in_range n (qubits g)) then Err ValueError
  else if negb (Nat.eqb (length (qubits g)) (arity (name g)) && nodupb (qubits g))
  then Err ValueError
  else match name g, qubits g with
       | GT, [q] => Ok (inject_t omega q ts)
       | GTDG, [q] => Ok (inject_t (Cconj omega) q ts)
       | gn, qs => Ok (map (fun tm : term => (fst tm, apply_clifford gn qs (snd tm))) ts)
       end.

Fixpoint run_gates (n : nat) (gs : list QuantumGate) (ts : list term)
  : result (list term) :=
  match gs with
  | [] => Ok ts
  | g :: gs' =>
      match apply_gate_terms n g ts with
      | Ok ts' => run_gates n gs' ts'
      | Err e => Err e
      end
  end.

(** the all-zero basis state |0...0> *)
Definition zero_vec : vec := fun x => if Nat.eqb x 0 then C1 else C0.

(** Modelled from the spec: [State::from_circuit] (§4.3), one term
    [(1, |0...0>)] folded through the gates in order. *)
Definition from_circuit (c : QuantumCircuit) : result QuantumState :=
  match run_gates (num_qubits c) (gates c) [(C1, zero_vec)] with
  | Ok ts => Ok {| st_num_qubits := num_qubits c; st_terms := ts |}
  | Err e => Err e
  end.

(** ** Queries (§4.5, §4.6) *)

Fixpoint Csum (m : nat) (f : nat -> C) : C :=
  match m with
  | O => C0
  | Datatypes.S m' => Cadd (Csum m' f) (f m')
  end.

(** [<u|v>] on [n] qubits *)
Definition vdot (n : nat) (u v : vec) : C :=
  Csum (2 ^ n) (fun x => Cmul (Cconj (u x)) (v x)).

(** the represented vector [sum_k c_k |psi_k>] *)
Definition represented (ts : list term) : vec :=
  fun x => fold_right (fun tm acc => Cadd (Cmul (fst tm) (snd tm x)) acc) C0 ts.

(** Modelled from the spec: [to_statevector] (§4.6), the 2^n amplitudes of
    the sum, qubit 0 least significant. *)
Definition to_statevector (st : QuantumState) : list C :=
  map (represented (st_terms st)) (seq 0 (2 ^ st_num_qubits st)).

Definition Csum_list (l : list C) : C := fold_right Cadd C0 l.

(** [sum_j sum_k conj(c_j) c_k <psi_j| op |phi_k>], the pairwise kernel
    shared by [inner_product] and [exp_value] *)
Definition terms_inner (n : nat) (ts1 : list term) (op : vec -> vec)
    (ts2 : list term) : C :=
  Csum_list (map (fun t1 : term =>
    Csum_list (map (fun t2 : term =>
      Cmul (Cmul (Cconj (fst t1)) (fst t2)) (vdot n (snd t1) (op (snd t2)))) ts2)) ts1).

(** Modelled from the spec: [inner_product] (§4.5); [a.inner_product(b)]
    is [<a|b>], a qubit-count mismatch is a value error. *)
Definition inner_product (a b : QuantumState) : result C :=
  if Nat.eqb (st_num_qubits a) (st_num_qubits b)
  then Ok (terms_inner (st_num_qubits a) (st_terms a) (fun v => v) (st_terms b))
  else Err ValueError.

Definition norm_sq (st : QuantumState) : R :=
  re (terms_inner (st_num_qubits st) (st_terms st) (fun v => v) (st_terms st)).

(** Modelled from the spec: [norm()] is [sqrt <Psi|Psi>] (§4.3). *)
Definition norm (st : QuantumState) : R := sqrt (norm_sq st).

(** Pauli strings as the collaborator parser hands them over (§3, §6):
    dense (position = qubit) or sparse (letter, qubit index). *)
Inductive pauli_letter := LI | LX | LY | LZ.

Inductive PauliString :=
| Dense (l : list pauli_letter)
| Sparse (l : list (pauli_letter * nat)).

Definition apply_letter (p : pauli_letter) (q : nat) (v : vec) : vec :=
  match p with
  | LI => v
  | LX => apply1 mat_X q v
  | LY => apply1 mat_Y q v
  | LZ => apply1 mat_Z q v
  end.

Fixpoint apply_dense (l : list pauli_letter) (q : nat) (v : vec) : vec :=
  match l with
  | [] => v
  | p :: l' => apply_letter p q (apply_dense l' (Datatypes.S q) v)
  end.

Definition apply_pauli (P : PauliString) (v : vec) : vec :=
  match P with
  | Dense l => apply_dense l 0 v
  | Sparse l => fold_right (fun pq acc => apply_letter (fst pq) (snd pq) acc) v l
  end.

(** a dense string has width its length; a sparse one takes its width from
    the state and must name qubits below it *)
Definition pauli_fits (n : nat) (P : PauliString) : bool :=
  match P with
  | Dense l => Nat.eqb (length l) n
  | Sparse l => forallb (fun pq => Nat.ltb (snd pq) n) l
  end.

(** Modelled from the spec: [exp_value] (§4.5), [<Psi|P|Psi>] for a Pauli
    of width exactly n; a width mismatch is a value error. *)
Definition exp_value (st : QuantumState) (P : PauliString) : result R :=
  if pauli_fits (st_num_qubits st) P
  then Ok (re (terms_inner (st_num_qubits st) (st_terms st) (apply_pauli P) (st_terms st)))
  else Err ValueError.

(** ** Measurement, projection, sampling (§4.5) *)

(** [p1 = <Psi|(I - Z_q)/2|Psi> / <Psi|Psi>] through the kernel on [Z_q] *)
Definition prob_one (q : nat) (st : QuantumState) : R :=
  let nrm := norm_sq st in
  let e := re (terms_inner (st_num_qubits st) (st_terms st) (apply1 mat_Z q) (st_terms st)) in
  ((nrm - e) / 2) / nrm.

(** [(I + (-1)^b Z_q)/2] on one vector *)
Definition project_vec (q : nat) (b : bool) (v : vec) : vec :=
  fun x => Cscale (1 / 2) (Cadd (v x) (Cscale (if b then -1 else 1) (apply1 mat_Z q v x))).

Definition project_terms (q : nat) (b : bool) (st : QuantumState) : QuantumState :=
  {| st_num_qubits := st_num_qubits st;
     st_terms := map (fun tm : term => (fst tm, project_vec q b (snd tm))) (st_terms st) |}.

(** every coefficient times [1/sqrt <Psi|Psi>] *)
Definition rescale (st : QuantumState) : QuantumState :=
  let s := / sqrt (norm_sq st) in
  {| st_num_qubits := st_num_qubits st;
     st_terms := map (fun tm : term => (Cscale s (fst tm), snd tm)) (st_terms st) |}.

(** Modelled from the spec: [project_normalized(q, bit)] (§4.5). *)
Definition project_normalized (q : nat) (b : bool) (st : QuantumState)
  : result QuantumState :=
  if negb (Nat.ltb q (st_num_qubits st)) then Err ValueError
  else
    let st' := project_terms q b st in
    if Req_dec_T (norm_sq st') 0 then Err ValueError else Ok (rescale st').

(** a random bit weighted by [p1], from a uniform draw [u] in [0,1) *)
Definition draw_bit (u p1 : R) : bool := if Rlt_dec u p1 then true else false.

(** The draws [u k] stand for the uniform stream the seed produces. *)
Fixpoint measure_loop (qs : list nat) (u : nat -> R) (k : nat) (st : QuantumState)
  : list bool * QuantumState :=
  match qs with
  | [] => ([], st)
  | q :: qs' =>
      let b := draw_bit (u k) (prob_one q st) in
      let (bs, st') := measure_loop qs' u (Datatypes.S k) (project_terms q b st) in
      (b :: bs, st')
  end.

(** Modelled from the spec: [measure(qubits, seed?)] (§4.5, §9); the empty
    list is a no-op, duplicates and out-of-range indices are value errors,
    the state is rescaled once after the batch. *)
Definition measure (qs : list nat) (u : nat -> R) (st : QuantumState)
  : result (list bool * QuantumState) :=
  match qs with
  | [] => Ok ([], st)
  | _ =>
      if qubits_in_range (st_num_qubits st) qs && nodupb qs
      then let (bs, st') := measure_loop qs u 0 st in Ok (bs, rescale st')
      else Err ValueError
  end.

Fixpoint add_count (k : list bool) (counts : list (list bool * nat))
  : list (list bool * nat) :=
  match counts with
  | [] => [(k, 1%nat)]
  | (k', c) :: rest =>
      if list_eq_dec Bool.bool_dec k k' then (k', Datatypes.S c) :: rest
      else (k', c) :: add_count k rest
  end.

(** each shot measures an independent clone of [st] with its own draws *)
Fixpoint sample_loop (qs : list nat) (u : nat -> nat -> R) (shots : nat)
    (st : QuantumState) (counts : list (list bool * nat)) : list (list bool * nat) :=
  match shots with
  | O => counts
  | Datatypes.S s => sample_loop qs u s st (add_count (fst (measure_loop qs (u s) 0 st)) counts)
  end.

(** Modelled from the spec: [sample(qubits, shots, seed?)] (§4.5); an empty
    list is a value error, unlike [measure]. *)
Definition sample (qs : list nat) (shots : nat) (u : nat -> nat -> R) (st : QuantumState)
  : result (list (list bool * nat)) :=
  match qs with
  | [] => Err ValueError
  | _ =>
      if qubits_in_range (st_num_qubits st) qs && nodupb qs
      then Ok (sample_loop qs u shots st [])
      else Err ValueError
  end.

(** ** Random Clifford circuits (§4.7) *)

Section RandomClifford.

(** the gate sampler the seed drives; the spec fixes only its determinism *)
Variable sampler : nat -> Z -> list QuantumGate.

Definition seed_in_range (s : Z) : bool := (0 <=? s)%Z && (s <? 2 ^ 256)%Z.

(** Modelled from the spec: [Circuit::random_clifford(n, seed?)] (§4.7); a
    seed outside the 256-bit unsigned range is an overflow error, a missing
    seed is replaced by a 256-bit draw [entropy] of the entropy source. *)
Definition random_clifford (n : nat) (seed : option Z) (entropy : Z)
  : result QuantumCircuit :=
  match seed with
  | Some s =>
      if seed_in_range s then Ok {| num_qubits := n; gates := sampler n s |}
      else Err OverflowError
  | None => Ok {| num_qubits := n; gates := sampler n (entropy mod 2 ^ 256)%Z |}
  end.

End RandomClifford.

(** ** Concrete circuits and auxiliary definitions *)

(** the 2-qubit circuit H(0), T(0), CX(0,1) of the initialization test *)
Definition circuit_htcx : QuantumCircuit :=
  {| num_qubits := 2;
     gates := [ {| name := GH; qubits := [0%nat] |};
                {| name := GT; qubits := [0%nat] |};
                {| name := GCX; qubits := [0%nat; 1%nat] |} ] |}.

(** the basis state |1> *)
Definition basis_one : vec := fun x => if Nat.eqb x 1 then C1 else C0.

(** the 1-qubit circuit H(0), T(0) of scenario S2 *)
Definition circuit_ht : QuantumCircuit :=
  {| num_qubits := 1;
     gates := [ {| name := GH; qubits := [0%nat] |};
                {| name := GT; qubits := [0%nat] |} ] |}.

(** the 3-qubit state |000> *)
Definition state_000 : QuantumState :=
  {| st_num_qubits := 3; st_terms := [(C1, zero_vec)] |}.

Fixpoint Rsum (m : nat) (f : nat -> R) : R :=
  match m with
  | O => 0
  | Datatypes.S m' => Rsum m' f + f m'
  end.

Definition map_op (op : vec -> vec) (ts : list term) : list term :=
  map (fun t : term => (fst t, op (snd t))) ts.

(** squared length and weight of the branch [bit q = b] of a vector *)
Definition vnorm (n : nat) (v : vec) : R := Rsum (2 ^ n) (fun x => Cnorm2 (v x)).

Definition vmass (n q : nat) (b : bool) (v : vec) : R :=
  Rsum (2 ^ n) (fun x => if Bool.eqb (bit x q) b then Cnorm2 (v x) else 0).

(** [v] vanishes wherever the bits [qs] of the index differ from [bs] *)
Definition collapsed (v : vec) (qs : list nat) (bs : list bool) : Prop :=
  forall x, Forall2 (fun q b => bit x q = b) qs bs \/ v x = C0.

(** a statevector with a single nonzero amplitude, of modulus one *)
Definition one_hot (l : list C) : Prop :=
  exists x0, (x0 < length l)%nat /\ Cnorm2 (nth x0 l C0) = 1 /\
    forall y, (y < length l)%nat -> y <> x0 -> nth y l C0 = C0.

(** the phase gate [diag(1, e)] *)
Definition mat_phase (e : C) : M2 := {| m00 := C1; m01 := C0; m10 := C0; m11 := e |}.

(** a 2x2 matrix that keeps the squared length of every pair of amplitudes *)
Definition unitary2 (m : M2) : Prop :=
  forall a b : C,
    Cnorm2 (Cadd (Cmul (m00 m) a) (Cmul (m01 m) b))
    + Cnorm2 (Cadd (Cmul (m10 m) a) (Cmul (m11 m) b)) = Cnorm2 a + Cnorm2 b.

(** the 2-qubit circuit H(1): amplitudes on |00> and |10> *)
Definition circuit_h1 : QuantumCircuit :=
  {| num_qubits := 2; gates := [ {| name := GH; qubits := [1%nat] |} ] |}.

(** ** The validation helpers of the test suite

    [src/tests/test_qiskit_validation.py] draws random circuits as OpenQASM
    text and compares the engine with Qiskit over every Pauli string.  Its
    helpers are ordinary Python and are embedded as written.  The module
    [random] enters through the one primitive CPython builds it on,
    [_randbelow], together with [sample], whose retry loop over a set is
    left as an interface; [choice], [randrange] and [shuffle] follow
    CPython's code over [_randbelow].  The global generator state is
    threaded explicitly. *)

Module PyValidation.

Import String.StringSyntax.
Local Open Scope string_scope.

Definition string := String.string.

(** the exceptions these helpers can raise *)
Inductive py_exc := PyValueError | PyIndexError | PyAssertionError.

Inductive py_result (A : Type) := PyOk (a : A) | PyRaise (e : py_exc).
Arguments PyOk {A} a.
Arguments PyRaise {A} e.

(** the generator behind the module-level functions of [random]:
    [py_seed] is [random.seed], [randbelow] is [_randbelow] (defined for a
    positive bound), [sample2 g n] is [random.sample(range(n), 2)] *)
Record py_random := {
  rng : Type;
  py_seed : Z -> rng;
  randbelow : rng -> nat -> nat * rng;
  sample2 : rng -> nat -> (nat * nat) * rng }.

(** the documented contracts of [_randbelow] and of [sample] *)
Definition randbelow_ok (P : py_random) : Prop :=
  forall g n, (0 < n)%nat -> (fst (randbelow P g n) < n)%nat.

Definition sample2_ok (P : py_random) : Prop :=
  forall g n, (2 <= n)%nat ->
    (fst (fst (sample2 P g n)) < n)%nat /\ (snd (fst (sample2 P g n)) < n)%nat /\
    fst (fst (sample2 P g n)) <> snd (fst (sample2 P g n)).

(** [x[i] = v] on an in-range index *)
Fixpoint list_set {A} (l : list A) (i : nat) (v : A) : list A :=
  match l, i with
  | [], _ => []
  | _ :: l', O => v :: l'
  | x :: l', Datatypes.S i' => x :: list_set l' i' v
  end.

(** [x[i], x[j] = x[j], x[i]] *)
Definition py_swap {A} (d : A) (x : list A) (i j : nat) : list A :=
  let xi := nth i x d in
  let xj := nth j x d in
  list_set (list_set x i xj) j xi.

Section Random.

Variable P : py_random.

(** [random.randrange(stop)] *)
Definition py_randrange (stop : Z) (g : rng P) : py_result (nat * rng P) :=
  if (0 <? stop)%Z then PyOk (randbelow P g (Z.to_nat stop)) else PyRaise PyValueError.

(** [random.choice(seq)] *)
Definition py_choice {A} (d : A) (seq : list A) (g : rng P) : py_result (A * rng P) :=
  match seq with
  | [] => PyRaise PyIndexError
  | _ => let (i, g') := randbelow P g (length seq) in PyOk (nth i seq d, g')
  end.

(** [for i in reversed(range(1, len(x))): j = randbelow(i + 1); x[i], x[j] = x[j], x[i]] *)
Fixpoint shuffle_loop {A} (d : A) (i : nat) (x : list A) (g : rng P) : list A * rng P :=
  match i with
  | O => (x, g)
  | Datatypes.S i' =>
      let (j, g') := randbelow P g (Datatypes.S i) in
      shuffle_loop d i' (py_swap d x i j) g'
  end.

(** [random.shuffle(x)] *)
Definition py_shuffle {A} (d : A) (x : list A) (g : rng P) : list A * rng P :=
  shuffle_loop d (length x - 1) x g.

End Random.

Definition SINGLE_QUBIT_CLIFFORDS : list string :=
  ["h"; "x"; "y"; "z"; "s"; "sdg"; "sx"; "sxdg"].
Definition TWO_QUBIT_CLIFFORDS : list string := ["cx"; "cz"; "swap"].
Definition T_TYPE_GATES : list string := ["t"; "tdg"].

(** an entry [(gate_name, qubits)] of [gates_to_apply] *)
Definition gate_info : Type := string * list nat.
Definition no_gate : gate_info := (String.EmptyString, []).

Section Generator.

Variable P : py_random.

(** the loop [for _ in range(k): gate = random.choice(names);
    target = random.randrange(num_qubits); gates_to_apply.append((gate, [target]))],
    which the generator runs for the single-qubit Cliffords and for the
    T-type gates *)
Fixpoint add_one_qubit_gates (names : list string) (num_qubits : Z) (k : nat)
    (g : rng P) (acc : list gate_info) : py_result (list gate_info * rng P) :=
  match k with
  | O => PyOk (acc, g)
  | Datatypes.S k' =>
      match py_choice P String.EmptyString names g with
      | PyRaise e => PyRaise e
      | PyOk (gate, g1) =>
          match py_randrange P num_qubits g1 with
          | PyRaise e => PyRaise e
          | PyOk (target, g2) =>
              add_one_qubit_gates names num_qubits k' g2 (acc ++ [(gate, [target])])
          end
      end
  end.

(** [for _ in range(k): gate = random.choice(TWO_QUBIT_CLIFFORDS);
    q1, q2 = random.sample(range(num_qubits), 2); gates_to_apply.append((gate, [q1, q2]))] *)
Fixpoint add_two_qubit_gates (num_qubits : nat) (k : nat) (g : rng P)
    (acc : list gate_info) : py_result (list gate_info * rng P) :=
  match k with
  | O => PyOk (acc, g)
  | Datatypes.S k' =>
      match py_choice P String.EmptyString TWO_QUBIT_CLIFFORDS g with
      | PyRaise e => PyRaise e
      | PyOk (gate, g1) =>
          let '((q1, q2), g2) := sample2 P g1 num_qubits in
          add_two_qubit_gates num_qubits k' g2 (acc ++ [(gate, [q1; q2])])
      end
  end.

(** [generate_random_circuit_qasm] up to the shuffled [gates_to_apply];
    [g] is the global generator state on entry *)
Definition gates_to_apply (num_qubits num_single_clifford num_two_clifford num_t : Z)
    (seed : option Z) (g : rng P) : py_result (list gate_info * rng P) :=
  let g0 := match seed with Some s => py_seed P s | None => g end in
  match add_one_qubit_gates SINGLE_QUBIT_CLIFFORDS num_qubits
          (Z.to_nat num_single_clifford) g0 [] with
  | PyRaise e => PyRaise e
  | PyOk (acc1, g1) =>
      match (if (2 <=? num_qubits)%Z
             then add_two_qubit_gates (Z.to_nat num_qubits) (Z.to_nat num_two_clifford) g1 acc1
             else PyOk (acc1, g1)) with
      | PyRaise e => PyRaise e
      | PyOk (acc2, g2) =>
          match add_one_qubit_gates T_TYPE_GATES num_qubits (Z.to_nat num_t) g2 acc2 with
          | PyRaise e => PyRaise e
          | PyOk (acc3, g3) => PyOk (py_shuffle P no_gate acc3 g3)
          end
      end
  end.

End Generator.

(** statement helpers: the entries one iteration of the one-qubit loop and of
    the two-qubit loop can append, from some generator states [g1], [g2] *)
Definition one_qubit_entry (P : py_random) (names : list string) (n : Z) (gi : gate_info) : Prop :=
  exists g1 g2, gi = (nth (fst (randbelow P g1 (length names))) names String.EmptyString,
                      [fst (randbelow P g2 (Z.to_nat n))]).

Definition two_qubit_entry (P : py_random) (n : nat) (gi : gate_info) : Prop :=
  exists g1 g2, gi = (nth (fst (randbelow P g1 (length TWO_QUBIT_CLIFFORDS)))
                          TWO_QUBIT_CLIFFORDS String.EmptyString,
                      [fst (fst (sample2 P g2 n)); snd (fst (sample2 P g2 n))]).

(** [str] of an integer *)
Fixpoint uint_to_string (u : Decimal.uint) : string :=
  match u with
  | Decimal.Nil => String.EmptyString
  | Decimal.D0 u' => String.String (Ascii.ascii_of_nat 48) (uint_to_string u')
  | Decimal.D1 u' => String.String (Ascii.ascii_of_nat 49) (uint_to_string u')
  | Decimal.D2 u' => String.String (Ascii.ascii_of_nat 50) (uint_to_string u')
  | Decimal.D3 u' => String.String (Ascii.ascii_of_nat 51) (uint_to_string u')
  | Decimal.D4 u' => String.String (Ascii.ascii_of_nat 52) (uint_to_string u')
  | Decimal.D5 u' => String.String (Ascii.ascii_of_nat 53) (uint_to_string u')
  | Decimal.D6 u' => String.String (Ascii.ascii_of_nat 54) (uint_to_string u')
  | Decimal.D7 u' => String.String (Ascii.ascii_of_nat 55) (uint_to_string u')
  | Decimal.D8 u' => String.String (Ascii.ascii_of_nat 56) (uint_to_string u')
  | Decimal.D9 u' => String.String (Ascii.ascii_of_nat 57) (uint_to_string u')
  end.

Definition nat_str (n : nat) : string := uint_to_string (Nat.to_uint n).

Definition z_str (z : Z) : string :=
  if (z <? 0)%Z then String.append "-" (nat_str (Z.to_nat (- z)))
  else nat_str (Z.to_nat z).

Definition nl_char : Ascii.ascii := Ascii.ascii_of_nat 10.
Definition nl : string := String.String nl_char String.EmptyString.
Definition dq : string := String.String (Ascii.ascii_of_nat 34) String.EmptyString.

(** [["OPENQASM 2.0;", 'include "qelib1.inc";', f"qreg q[{num_qubits}];"]] *)
Definition qasm_header (num_qubits : Z) : list string :=
  [ "OPENQASM 2.0;";
    String.append "include " (String.append dq (String.append "qelib1.inc" (String.append dq ";")));
    String.append "qreg q[" (String.append (z_str num_qubits) "];") ].

(** [f"{gate_name} {qubit_args};"] with [qubit_args = ", ".join([f"q[{i}]" for i in qubits])] *)
Definition gate_line (gi : gate_info) : string :=
  let (gate_name, qubits) := gi in
  String.append gate_name
    (String.append " "
       (String.append
          (String.concat ", " (map (fun i => String.append "q[" (String.append (nat_str i) "]")) qubits))
          ";")).

(** [generate_random_circuit_qasm(num_qubits, num_single_clifford,
    num_two_clifford, num_t, seed)]: the text and the generator state after *)
Definition generate_random_circuit_qasm (P : py_random)
    (num_qubits num_single_clifford num_two_clifford num_t : Z)
    (seed : option Z) (g : rng P) : py_result (string * rng P) :=
  match gates_to_apply P num_qubits num_single_clifford num_two_clifford num_t seed g with
  | PyRaise e => PyRaise e
  | PyOk (gates, g') =>
      PyOk (String.concat nl (qasm_header num_qubits ++ map gate_line gates), g')
  end.

(** [abs(z)] of a Python complex number *)
Definition Cabs (a : C) : R := sqrt (Cnorm2 a).

Section StatevectorMatch.

Variable tolerance : R.

(** [for i in range(len(necstar_sv)): assert abs(necstar_sv[i] - qiskit_data[i]) < tolerance] *)
Fixpoint check_amplitudes (necstar_sv qiskit_data : list C) (idx : list nat) : py_result unit :=
  match idx with
  | [] => PyOk tt
  | i :: rest =>
      if Rlt_dec (Cabs (Csub (nth i necstar_sv C0) (nth i qiskit_data C0))) tolerance
      then check_amplitudes necstar_sv qiskit_data rest
      else PyRaise PyAssertionError
  end.

(** [assert_statevector_match(necstar_state, qiskit_sv, tolerance)], with
    [qiskit_data] standing for [qiskit_sv.data] *)
Definition assert_statevector_match (necstar_state : QuantumState) (qiskit_data : list C)
    : py_result unit :=
  let necstar_sv := to_statevector necstar_state in
  if Nat.eqb (length necstar_sv) (length qiskit_data)
  then check_amplitudes necstar_sv qiskit_data (seq 0 (length necstar_sv))
  else PyRaise PyAssertionError.

End StatevectorMatch.

Definition paulis : list string := ["I"; "X"; "Y"; "Z"].

(** one round of [itertools.product]: [result = [x+[y] for x in result for y in pool]] *)
Definition product_step {A} (result : list (list A)) (pool : list A) : list (list A) :=
  flat_map (fun x => map (fun y => x ++ [y]) pool) result.

(** [itertools.product(pool, repeat=r)] for [r >= 0] *)
Definition product_repeat {A} (pool : list A) (r : nat) : list (list A) :=
  fold_left product_step (repeat pool r) [[]].

Section ExpValueMatch.

(** [nc_from_str] is [NcPauliString.from_str], [qk_pauli] is [QiskitPauli],
    [nc_exp] is [necstar_state.exp_value] and [qk_exp] is
    [qiskit_sv.expectation_value(.).real]; each may raise *)
Variables (NcPauli QkPauli : Type)
  (nc_from_str : string -> py_result NcPauli) (qk_pauli : string -> py_result QkPauli)
  (nc_exp : NcPauli -> py_result R) (qk_exp : QkPauli -> py_result R)
  (tolerance : R).

Fixpoint check_paulis (ps : list (list string)) : py_result unit :=
  match ps with
  | [] => PyOk tt
  | pauli_tuple :: rest =>
      let pauli_str := String.concat String.EmptyString pauli_tuple in
      match nc_from_str pauli_str with
      | PyRaise e => PyRaise e
      | PyOk nc_p =>
          match qk_pauli pauli_str with
          | PyRaise e => PyRaise e
          | PyOk qk_p =>
              match nc_exp nc_p with
              | PyRaise e => PyRaise e
              | PyOk nc_val =>
                  match qk_exp qk_p with
                  | PyRaise e => PyRaise e
                  | PyOk qk_val =>
                      if Rlt_dec (Rabs (nc_val - qk_val)) tolerance then check_paulis rest
                      else PyRaise PyAssertionError
                  end
              end
          end
      end
  end.

(** [assert_exp_value_match(num_qubits, ...)]: [itertools.product] refuses
    a negative [repeat] *)
Definition assert_exp_value_match (num_qubits : Z) : py_result unit :=
  if (num_qubits <? 0)%Z then PyRaise PyValueError
  else check_paulis (product_repeat paulis (Z.to_nat num_qubits)).

End ExpValueMatch.

Arguments check_paulis {NcPauli QkPauli}.
Arguments assert_exp_value_match {NcPauli QkPauli}.

(** the values [pauli_str] takes in [assert_exp_value_match], in order *)
Definition pauli_strings (num_qubits : nat) : list string :=
  map (String.concat String.EmptyString) (product_repeat paulis num_qubits).

(** statement helpers: the base-[m] numeral of [k] on [r] digits, most
    significant first; membership in a list of names; newline counting *)
Fixpoint digits (m r k : nat) : list nat :=
  match r with
  | O => []
  | Datatypes.S r' => digits m r' (k / m) ++ [k mod m]
  end.

Definition in_names (names : list string) (s : string) : bool :=
  existsb (String.eqb s) names.

Definition count_names (names : list string) (gates : list gate_info) : nat :=
  length (filter (fun gi => in_names names (fst gi)) gates).

Fixpoint count_char (c : Ascii.ascii) (s : string) : nat :=
  match s with
  | String.EmptyString => 0
  | String.String a s' => (if Ascii.eqb a c then 1 else 0) + count_char c s'
  end.

(** a generator for concrete runs: [_randbelow] as a counter reduced modulo
    the bound, [sample] as two neighbours *)
Definition counter_random : py_random :=
  {| rng := nat;
     py_seed := fun s => Z.to_nat s;
     randbelow := fun g n => (g mod n, Datatypes.S g)%nat;
     sample2 := fun g n => ((g mod n, (Datatypes.S g) mod n), Datatypes.S g)%nat |}.

End PyValidation.

Import PyValidation.

(** * Properties *)

(** ** Stabilizer rank *)

Lemma flat_map_length_2 {A B : Type} (f : A -> list B) (l : list A) :
  (forall x, length (f x) = 2%nat) -> length (flat_map f l) = (2 * length l)%nat.
Proof.
  intros Hf. induction l as [|x l IH]; [reflexivity|].
  simpl. rewrite length_app, Hf, IH. lia.
Qed.

Lemma inject_t_length (e : C) (q : nat) (ts : list term) :
  length (inject_t e q ts) = (2 * length ts)%nat.
Proof.
  apply flat_map_length_2. intros [c v]. destruct (t_pair e). reflexivity.
Qed.

Lemma apply_gate_terms_length (n : nat) (g : QuantumGate) (ts ts' : list term) :
  apply_gate_terms n g ts = Ok ts' ->
  length ts' = ((if is_t_type g then 2 else 1) * length ts)%nat.
Proof.
  unfold apply_gate_terms, is_t_type.
  destruct (negb (qubits_in_range n (qubits g))); [discriminate|].
  destruct (Nat.eqb (length (qubits g)) (arity (name g)) && nodupb (qubits g)) eqn:Ha;
    [|discriminate]; simpl.
  revert Ha. destruct (name g); destruct (qubits g) as [|q [|q' l]]; simpl;
    intros Ha H; try discriminate Ha; injection H as <-;
    try rewrite inject_t_length; rewrite ?length_map; lia.
Qed.

Lemma run_gates_length (n : nat) (gs : list QuantumGate) (ts ts' : list term) :
  run_gates n gs ts = Ok ts' ->
  length ts' = (2 ^ count_t gs * length ts)%nat.
Proof.
  revert ts. induction gs as [|g gs IH]; intros ts H; simpl in H.
  - injection H as <-. simpl. lia.
  - destruct (apply_gate_terms n g ts) as [ts1|e] eqn:Hg; [|discriminate].
    apply IH in H. apply apply_gate_terms_length in Hg.
    unfold count_t in *. simpl. destruct (is_t_type g); simpl in *; rewrite H, Hg;
      rewrite ?Nat.add_0_r; lia.
Qed.

(** C1: every state [from_circuit] returns for a circuit with [k] T-type
    gates (T or TDG) has stabilizer rank exactly [2^k]. *)
Theorem from_circuit_rank (c : QuantumCircuit) (st : QuantumState) :
  from_circuit c = Ok st -> stabilizer_rank st = (2 ^ count_t (gates c))%nat.
Proof.
  unfold from_circuit, stabilizer_rank.
  destruct (run_gates (num_qubits c) (gates c) [(C1, zero_vec)]) as [ts|e] eqn:Hr;
    [|discriminate].
  intros H; injection H as <-. simpl.
  apply run_gates_length in Hr. simpl in Hr. lia.
Qed.

Lemma from_circuit_rank_witness :
  exists st, from_circuit circuit_htcx = Ok st /\ stabilizer_rank st = 2%nat.
Proof.
  eexists. split; [reflexivity|].
  apply (from_circuit_rank circuit_htcx). reflexivity.
Defined.

Ltac unfold_model := lazy -[Rplus Rmult Rminus Ropp Rinv Rdiv sqrt IZR].

Lemma sqrt2_sq : sqrt 2 * sqrt 2 = 2.
Proof. apply sqrt_sqrt. lra. Qed.

Lemma sqrt2_pos : 0 < sqrt 2.
Proof. apply sqrt_lt_R0. lra. Qed.

Lemma C_ext (a b : C) : re a = re b -> im a = im b -> a = b.
Proof. destruct a, b; simpl; intros; subst; reflexivity. Qed.

Ltac split_list :=
  repeat match goal with |- (_ :: _) = (_ :: _) => apply (f_equal2 (@cons C)) end.

Ltac sqrt2_solve :=
  pose proof sqrt2_sq; pose proof sqrt2_pos;
  set (s := sqrt 2) in *; assert (s <> 0) by lra;
  field_simplify_eq; auto; nra.

Lemma length_statevector (st : QuantumState) :
  length (to_statevector st) = (2 ^ st_num_qubits st)%nat.
Proof. unfold to_statevector. rewrite length_map, length_seq. reflexivity. Qed.

Lemma nth_statevector (st : QuantumState) (y : nat) :
  (y < 2 ^ st_num_qubits st)%nat ->
  nth y (to_statevector st) C0 = represented (st_terms st) y.
Proof.
  intros Hy. unfold to_statevector.
  rewrite nth_indep with (d' := represented (st_terms st) 0%nat)
    by (rewrite length_map, length_seq; exact Hy).
  rewrite map_nth, seq_nth by exact Hy. reflexivity.
Qed.

(** ** The T-injector's pair

    On the basis state |1> the injector yields [a - b = e^{i pi/4}], the
    phase of [T = diag(1, e^{i pi/4})]. *)

Lemma inject_t_on_one :
  represented (inject_t omega 0 [(C1, basis_one)]) 1%nat = omega.
Proof. unfold_model. apply C_ext; simpl; sqrt2_solve. Qed.

(** ** Statevector of a circuit with a T gate *)

(** C2: [to_statevector] has [2^n] entries, entry [x] being the amplitude
    of the basis state whose qubit [q] is bit [q] of [x] (qubit 0 least
    significant); for the 2-qubit circuit H(0), T(0), CX(0,1) it is
    exactly [1/sqrt 2, 0, 0, (1+i)/2], so every amplitude is within
    [1e-10] of that vector. *)
Theorem to_statevector_htcx :
  (forall st, length (to_statevector st) = (2 ^ st_num_qubits st)%nat /\
     forall x, (x < 2 ^ st_num_qubits st)%nat ->
       nth x (to_statevector st) C0 = represented (st_terms st) x) /\
  exists st, from_circuit circuit_htcx = Ok st /\
    to_statevector st = [RtoC inv_sqrt2; C0; C0; mkC (1 / 2) (1 / 2)] /\
    forall i, (i < 4)%nat ->
      Cabs (Csub (nth i (to_statevector st) C0)
                 (nth i [RtoC (/ sqrt 2); C0; C0; mkC (1 / 2) (1 / 2)] C0)) < / 10 ^ 10.
Proof.
  split.
  { intros st. split; [apply length_statevector|]. intros x Hx. apply nth_statevector, Hx. }
  assert (Hv : match from_circuit circuit_htcx with
               | Ok st => to_statevector st | Err _ => [] end =
      [RtoC inv_sqrt2; C0; C0; mkC (1 / 2) (1 / 2)]).
  { unfold_model. split_list.
    all: try reflexivity; apply C_ext; simpl; sqrt2_solve. }
  destruct (from_circuit circuit_htcx) as [st|e]; [|discriminate Hv].
  exists st. split; [reflexivity|]. split; [exact Hv|]. rewrite Hv.
  assert (Hp : 0 < / 10 ^ 10) by (apply Rinv_0_lt_compat; apply pow_lt; lra).
  intros i Hi. destruct i as [|[|[|[|i]]]]; [| | | | lia]; simpl nth;
    unfold Cabs, Cnorm2, Csub, inv_sqrt2, RtoC, C0; cbn [re im];
    (replace (_ * _ + _ * _) with 0 by ring); rewrite sqrt_0; exact Hp.
Qed.

Lemma to_statevector_htcx_witness :
  nth 0%nat (to_statevector state_000) C0 = represented (st_terms state_000) 0%nat /\
  exists st, from_circuit circuit_htcx = Ok st /\
    Cabs (Csub (nth 3 (to_statevector st) C0) (mkC (1 / 2) (1 / 2))) < / 10 ^ 10.
Proof.
  split.
  - apply (proj2 (proj1 to_statevector_htcx state_000)). simpl. lia.
  - destruct (proj2 to_statevector_htcx) as (st & E & _ & Hb).
    exists st. split; [exact E|]. apply (Hb 3%nat). lia.
Defined.

(** ** Argument validation *)

(** C6: [exp_value] is a value error for a dense Pauli string whose length
    differs from the qubit count (longer or shorter) and for a sparse one
    naming a qubit at or beyond the qubit count. *)
Theorem exp_value_width_mismatch (st : QuantumState) :
  (forall l, length l <> st_num_qubits st -> exp_value st (Dense l) = Err ValueError) /\
  (forall l, (exists pq, In pq l /\ (st_num_qubits st <= snd pq)%nat) ->
             exp_value st (Sparse l) = Err ValueError).
Proof.
  split.
  - intros l Hl. unfold exp_value, pauli_fits.
    destruct (Nat.eqb (length l) (st_num_qubits st)) eqn:E; [|reflexivity].
    apply Nat.eqb_eq in E. contradiction.
  - intros l [pq [Hin Hge]]. unfold exp_value, pauli_fits.
    destruct (forallb _ l) eqn:E; [|reflexivity].
    rewrite forallb_forall in E. specialize (E pq Hin).
    apply Nat.ltb_lt in E. lia.
Qed.

Lemma exp_value_width_mismatch_witness :
  exp_value state_000 (Dense [LZ; LZ; LI; LI; LI; LI]) = Err ValueError /\
  exp_value state_000 (Sparse [(LZ, 0%nat); (LY, 2%nat); (LX, 4%nat)]) = Err ValueError /\
  exp_value state_000 (Dense [LZ; LI]) = Err ValueError.
Proof.
  split; [|split].
  - apply (proj1 (exp_value_width_mismatch state_000)). simpl. lia.
  - apply (proj2 (exp_value_width_mismatch state_000)).
    exists (LX, 4%nat). split; [simpl; auto|simpl; lia].
  - apply (proj1 (exp_value_width_mismatch state_000)). simpl. lia.
Defined.

Lemma qubits_in_range_false (n : nat) (qs : list nat) :
  (exists q, In q qs /\ (n <= q)%nat) -> qubits_in_range n qs = false.
Proof.
  intros [q [Hin Hge]]. unfold qubits_in_range.
  destruct (forallb _ qs) eqn:E; [|reflexivity].
  rewrite forallb_forall in E. specialize (E q Hin). apply Nat.ltb_lt in E. lia.
Qed.

(** C7: [sample] is a value error on an empty qubit list, on an index out
    of range and on a duplicate index, while [measure []] returns the empty
    outcome list and the state unchanged. *)
Theorem sample_errors_measure_empty (st : QuantumState) (shots : nat)
    (u : nat -> nat -> R) (u1 : nat -> R) :
  sample [] shots u st = Err ValueError /\
  (forall qs, (exists q, In q qs /\ (st_num_qubits st <= q)%nat) ->
              sample qs shots u st = Err ValueError) /\
  (forall qs, nodupb qs = false -> sample qs shots u st = Err ValueError) /\
  measure [] u1 st = Ok ([], st).
Proof.
  split; [reflexivity|]. split; [|split; [|reflexivity]].
  - intros qs Hq. unfold sample.
    rewrite (qubits_in_range_false _ _ Hq).
    destruct qs; reflexivity.
  - intros qs Hd. unfold sample. rewrite Hd, andb_false_r.
    destruct qs; reflexivity.
Qed.

Lemma sample_errors_measure_empty_witness :
  sample [0%nat; 1%nat; 2%nat; 3%nat] 10 (fun _ _ => 0) state_000 = Err ValueError /\
  sample [0%nat; 0%nat] 10 (fun _ _ => 0) state_000 = Err ValueError.
Proof.
  split.
  - apply (proj1 (proj2 (sample_errors_measure_empty state_000 10 (fun _ _ => 0) (fun _ => 0)))).
    exists 3%nat. split; [simpl; auto | simpl; lia].
  - apply (proj1 (proj2 (proj2 (sample_errors_measure_empty state_000 10 (fun _ _ => 0) (fun _ => 0))))).
    reflexivity.
Defined.

(** ** Random Clifford circuits *)

(** C8: [random_clifford n (Some s)] is an overflow error exactly when [s]
    is negative or at least [2^256], and otherwise returns a circuit on [n]
    qubits. *)
Theorem random_clifford_seed_range (sampler : nat -> Z -> list QuantumGate)
    (n : nat) (s e : Z) :
  (random_clifford sampler n (Some s) e = Err OverflowError <-> (s < 0 \/ 2 ^ 256 <= s)%Z) /\
  ((exists c, random_clifford sampler n (Some s) e = Ok c /\ num_qubits c = n) <->
   (0 <= s < 2 ^ 256)%Z).
Proof.
  unfold random_clifford, seed_in_range.
  destruct ((0 <=? s)%Z && (s <? 2 ^ 256)%Z) eqn:E.
  - apply andb_true_iff in E as [E1 E2].
    apply Z.leb_le in E1. apply Z.ltb_lt in E2.
    split; split.
    + discriminate.
    + lia.
    + intros _. lia.
    + intros _. eexists. split; reflexivity.
  - apply andb_false_iff in E.
    assert (Hout : (s < 0 \/ 2 ^ 256 <= s)%Z).
    { destruct E as [E|E]; [apply Z.leb_gt in E | apply Z.ltb_ge in E]; lia. }
    split; split.
    + intros _. exact Hout.
    + intros _. reflexivity.
    + intros [c [Hc _]]. discriminate.
    + lia.
Qed.

Lemma random_clifford_seed_range_witness :
  (exists c, random_clifford (fun _ _ => []) 4 (Some (2 ^ 256 - 1)%Z) 0%Z = Ok c
             /\ num_qubits c = 4%nat) /\
  random_clifford (fun _ _ => []) 4 (Some (2 ^ 300)%Z) 0%Z = Err OverflowError /\
  random_clifford (fun _ _ => []) 4 (Some (-1)%Z) 0%Z = Err OverflowError.
Proof.
  split; [|split].
  - apply (proj2 (random_clifford_seed_range (fun _ _ => []) 4 (2 ^ 256 - 1) 0)). lia.
  - apply (proj1 (random_clifford_seed_range (fun _ _ => []) 4 (2 ^ 300) 0)). lia.
  - apply (proj1 (random_clifford_seed_range (fun _ _ => []) 4 (-1) 0)). lia.
Defined.

(** ** Linearity of the represented vector *)

Ltac cring := apply C_ext; simpl; ring.

Lemma Csum_ext (m : nat) (f g : nat -> C) :
  (forall x, (x < m)%nat -> f x = g x) -> Csum m f = Csum m g.
Proof.
  induction m as [|m IH]; intros H; simpl; [reflexivity|].
  rewrite IH by (intros; apply H; lia). rewrite H by lia. reflexivity.
Qed.

Lemma Rsum_ext (m : nat) (f g : nat -> R) :
  (forall x, (x < m)%nat -> f x = g x) -> Rsum m f = Rsum m g.
Proof.
  induction m as [|m IH]; intros H; simpl; [reflexivity|].
  rewrite IH by (intros; apply H; lia). rewrite H by lia. reflexivity.
Qed.

Lemma Csum_lin (m : nat) (a : C) (f g : nat -> C) :
  Csum m (fun x => Cadd (Cmul a (f x)) (g x)) = Cadd (Cmul a (Csum m f)) (Csum m g).
Proof.
  induction m as [|m IH]; simpl; [cring|]. rewrite IH. cring.
Qed.

Lemma Csum_zero (m : nat) : Csum m (fun _ => C0) = C0.
Proof. induction m as [|m IH]; simpl; [reflexivity|]. rewrite IH. cring. Qed.

Lemma re_Csum (m : nat) (f : nat -> C) : re (Csum m f) = Rsum m (fun x => re (f x)).
Proof. induction m as [|m IH]; simpl; [reflexivity|]. rewrite IH. reflexivity. Qed.

Lemma vdot_lin_r (n : nat) (u w w' : vec) (c : C) :
  vdot n u (fun x => Cadd (Cmul c (w x)) (w' x)) = Cadd (Cmul c (vdot n u w)) (vdot n u w').
Proof.
  unfold vdot. rewrite <- Csum_lin. apply Csum_ext. intros x _. cring.
Qed.

Lemma vdot_lin_l (n : nat) (u u' w : vec) (c : C) :
  vdot n (fun x => Cadd (Cmul c (u x)) (u' x)) w = Cadd (Cmul (Cconj c) (vdot n u w)) (vdot n u' w).
Proof.
  unfold vdot. rewrite <- Csum_lin. apply Csum_ext. intros x _. cring.
Qed.

Lemma vdot_zero_l (n : nat) (w : vec) : vdot n (fun _ => C0) w = C0.
Proof.
  unfold vdot. transitivity (Csum (2 ^ n) (fun _ => C0)); [|apply Csum_zero].
  apply Csum_ext. intros x _. cring.
Qed.

Lemma vdot_zero_r (n : nat) (u : vec) : vdot n u (fun _ => C0) = C0.
Proof.
  unfold vdot. transitivity (Csum (2 ^ n) (fun _ => C0)); [|apply Csum_zero].
  apply Csum_ext. intros x _. cring.
Qed.

Lemma vdot_ext (n : nat) (u u' w w' : vec) :
  (forall x, u x = u' x) -> (forall x, w x = w' x) -> vdot n u w = vdot n u' w'.
Proof.
  intros Hu Hw. unfold vdot. apply Csum_ext. intros x _. rewrite Hu, Hw. reflexivity.
Qed.

Lemma represented_cons (c : C) (v : vec) (ts : list term) :
  represented ((c, v) :: ts) = fun x => Cadd (Cmul c (v x)) (represented ts x).
Proof. reflexivity. Qed.

Lemma terms_inner_row (n : nat) (c1 : C) (v1 : vec) (op : vec -> vec) (ts2 : list term) :
  Csum_list (map (fun t2 : term =>
      Cmul (Cmul (Cconj c1) (fst t2)) (vdot n v1 (op (snd t2)))) ts2)
  = Cmul (Cconj c1) (vdot n v1 (represented (map_op op ts2))).
Proof.
  induction ts2 as [|[c2 v2] ts2 IH]; simpl.
  - unfold represented. simpl. rewrite vdot_zero_r. cring.
  - change (map_op op ((c2, v2) :: ts2)) with ((c2, op v2) :: map_op op ts2).
    rewrite IH, represented_cons, vdot_lin_r. cring.
Qed.

(** the pairwise kernel is the inner product of the represented vectors *)
Lemma terms_inner_vdot (n : nat) (ts1 : list term) (op : vec -> vec) (ts2 : list term) :
  terms_inner n ts1 op ts2 = vdot n (represented ts1) (represented (map_op op ts2)).
Proof.
  induction ts1 as [|[c1 v1] ts1 IH].
  - unfold terms_inner, represented. simpl. rewrite vdot_zero_l. reflexivity.
  - change (terms_inner n ((c1, v1) :: ts1) op ts2) with
      (Cadd (Csum_list (map (fun t2 : term =>
               Cmul (Cmul (Cconj c1) (fst t2)) (vdot n v1 (op (snd t2)))) ts2))
            (terms_inner n ts1 op ts2)).
    rewrite terms_inner_row, IH, represented_cons, vdot_lin_l. reflexivity.
Qed.

Lemma Rsum_lin (m : nat) (a : R) (f g : nat -> R) :
  Rsum m (fun x => a * f x + g x) = a * Rsum m f + Rsum m g.
Proof. induction m as [|m IH]; simpl; [ring|]. rewrite IH. ring. Qed.

Lemma Rsum_nonneg (m : nat) (f : nat -> R) :
  (forall x, (x < m)%nat -> 0 <= f x) -> 0 <= Rsum m f.
Proof.
  induction m as [|m IH]; intros H; simpl; [lra|].
  assert (0 <= Rsum m f) by (apply IH; intros; apply H; lia).
  assert (0 <= f m) by (apply H; lia). lra.
Qed.

Lemma Rsum_zero (m : nat) (f : nat -> R) :
  (forall x, (x < m)%nat -> f x = 0) -> Rsum m f = 0.
Proof.
  induction m as [|m IH]; intros H; simpl; [reflexivity|].
  rewrite IH, H by (intros; try apply H; lia). ring.
Qed.

Lemma Cnorm2_nonneg (a : C) : 0 <= Cnorm2 a.
Proof. unfold Cnorm2. nra. Qed.

Lemma vnorm_ext (n : nat) (v w : vec) : (forall x, v x = w x) -> vnorm n v = vnorm n w.
Proof. intros H. unfold vnorm. apply Rsum_ext. intros x _. rewrite H. reflexivity. Qed.

Lemma vnorm_nonneg (n : nat) (v : vec) : 0 <= vnorm n v.
Proof. apply Rsum_nonneg. intros. apply Cnorm2_nonneg. Qed.

Lemma vmass_nonneg (n q : nat) (b : bool) (v : vec) : 0 <= vmass n q b v.
Proof.
  apply Rsum_nonneg. intros. destruct (Bool.eqb _ _); [apply Cnorm2_nonneg | lra].
Qed.

Lemma vnorm_split (n q : nat) (v : vec) : vnorm n v = vmass n q true v + vmass n q false v.
Proof.
  unfold vnorm, vmass. rewrite <- (Rmult_1_l (Rsum _ (fun x => if Bool.eqb (bit x q) true then _ else _))).
  rewrite <- Rsum_lin. apply Rsum_ext. intros x _. destruct (bit x q); simpl; ring.
Qed.

Lemma vmass_zero (n q : nat) (b : bool) (v : vec) :
  (forall x, bit x q <> b -> v x = C0) -> vmass n q (negb b) v = 0.
Proof.
  intros H. apply Rsum_zero. intros x _.
  destruct (bit x q) eqn:E, b; simpl; try reflexivity;
    rewrite H by (rewrite E; discriminate); unfold Cnorm2; simpl; ring.
Qed.

Lemma Cnorm2_scale (s : R) (a : C) : Cnorm2 (Cscale s a) = s * s * Cnorm2 a.
Proof. unfold Cnorm2, Cscale. simpl. ring. Qed.

Lemma vnorm_scale (n : nat) (s : R) (v : vec) :
  vnorm n (fun x => Cscale s (v x)) = s * s * vnorm n v.
Proof.
  unfold vnorm. rewrite <- (Rplus_0_r (s * s * _)).
  replace 0 with (Rsum (2 ^ n) (fun _ => 0)) by (apply Rsum_zero; reflexivity).
  rewrite <- Rsum_lin. apply Rsum_ext. intros x _. rewrite Cnorm2_scale. ring.
Qed.

(** ** Gates and projections on the represented vector *)

Lemma represented_nil : represented [] = fun _ => C0.
Proof. reflexivity. Qed.

Lemma represented_id (ts : list term) (x : nat) :
  represented (map_op (fun v => v) ts) x = represented ts x.
Proof.
  induction ts as [|[c v] ts IH]; [reflexivity|].
  change (map_op (fun v => v) ((c, v) :: ts)) with ((c, v) :: map_op (fun v => v) ts).
  rewrite !represented_cons, IH. reflexivity.
Qed.

Lemma represented_apply1 (m : M2) (a : nat) (ts : list term) (x : nat) :
  represented (map_op (apply1 m a) ts) x = apply1 m a (represented ts) x.
Proof.
  induction ts as [|[c v] ts IH].
  - unfold apply1. rewrite represented_nil. destruct (bit x a); cring.
  - change (map_op (apply1 m a) ((c, v) :: ts)) with ((c, apply1 m a v) :: map_op (apply1 m a) ts).
    rewrite !represented_cons, IH. unfold apply1. destruct (bit x a); cring.
Qed.

Lemma apply1_Z (q : nat) (v : vec) (x : nat) :
  apply1 mat_Z q v x = if bit x q then Copp (v x) else v x.
Proof.
  unfold apply1, set_bit, clear_bit. destruct (bit x q); simpl; cring.
Qed.

Lemma project_vec_mask (q : nat) (b : bool) (v : vec) (x : nat) :
  project_vec q b v x = if Bool.eqb (bit x q) b then v x else C0.
Proof.
  unfold project_vec. rewrite apply1_Z.
  destruct (bit x q), b; simpl; apply C_ext; simpl; field.
Qed.

Lemma represented_project (q : nat) (b : bool) (st : QuantumState) (x : nat) :
  represented (st_terms (project_terms q b st)) x
  = if Bool.eqb (bit x q) b then represented (st_terms st) x else C0.
Proof.
  simpl. change (map (fun tm : term => (fst tm, project_vec q b (snd tm))) (st_terms st))
    with (map_op (project_vec q b) (st_terms st)).
  induction (st_terms st) as [|[c v] ts IH].
  - destruct (Bool.eqb _ _); reflexivity.
  - change (map_op (project_vec q b) ((c, v) :: ts))
      with ((c, project_vec q b v) :: map_op (project_vec q b) ts).
    rewrite !represented_cons, IH, project_vec_mask.
    destruct (Bool.eqb _ _); cring.
Qed.

Lemma represented_rescale (st : QuantumState) (x : nat) :
  represented (st_terms (rescale st)) x
  = Cscale (/ sqrt (norm_sq st)) (represented (st_terms st) x).
Proof.
  unfold rescale. cbn [st_terms]. generalize (/ sqrt (norm_sq st)) as s. intros s.
  induction (st_terms st) as [|[c v] ts IH]; [cring|].
  change (map (fun tm : term => (Cscale s (fst tm), snd tm)) ((c, v) :: ts))
    with ((Cscale s c, v) :: map (fun tm : term => (Cscale s (fst tm), snd tm)) ts).
  rewrite !represented_cons, IH. cring.
Qed.

(** [<Psi|Psi>] is the squared length of the represented vector *)
Lemma norm_sq_vnorm (st : QuantumState) :
  norm_sq st = vnorm (st_num_qubits st) (represented (st_terms st)).
Proof.
  unfold norm_sq. rewrite terms_inner_vdot.
  rewrite (vdot_ext _ _ (represented (st_terms st)) _ (represented (st_terms st)));
    [| reflexivity | apply represented_id].
  unfold vdot. rewrite re_Csum. unfold vnorm. apply Rsum_ext. intros x _.
  unfold Cnorm2. simpl. ring.
Qed.

Lemma Rsum_half_diff (m : nat) (f g : nat -> R) :
  (Rsum m f - Rsum m g) / 2 = Rsum m (fun x => (f x - g x) / 2).
Proof. induction m as [|m IH]; simpl; [field|]. rewrite <- IH. field. Qed.

(** [p1] is the weight of the branch [bit q = 1] over the squared length *)
Lemma prob_one_vmass (q : nat) (st : QuantumState) :
  prob_one q st = vmass (st_num_qubits st) q true (represented (st_terms st))
                  / vnorm (st_num_qubits st) (represented (st_terms st)).
Proof.
  unfold prob_one. rewrite <- norm_sq_vnorm. f_equal.
  rewrite terms_inner_vdot.
  rewrite (vdot_ext _ _ (represented (st_terms st)) _
             (apply1 mat_Z q (represented (st_terms st))));
    [| reflexivity | apply represented_apply1].
  rewrite norm_sq_vnorm. unfold vdot. rewrite re_Csum. unfold vnorm, vmass.
  rewrite Rsum_half_diff. apply Rsum_ext. intros x _.
  rewrite apply1_Z. destruct (bit x q); unfold Cnorm2; simpl; field.
Qed.

(** ** Measurement draws the branch and keeps it *)

Lemma vnorm_project (q : nat) (b : bool) (st : QuantumState) :
  vnorm (st_num_qubits st) (represented (st_terms (project_terms q b st)))
  = vmass (st_num_qubits st) q b (represented (st_terms st)).
Proof.
  unfold vnorm, vmass. apply Rsum_ext. intros x _.
  rewrite represented_project. destruct (Bool.eqb _ _); [reflexivity|].
  unfold Cnorm2. simpl. ring.
Qed.

Lemma norm_sq_rescale (st : QuantumState) :
  0 < norm_sq st -> norm_sq (rescale st) = 1.
Proof.
  intros Hpos. rewrite (norm_sq_vnorm (rescale st)).
  rewrite (vnorm_ext _ _ (fun x => Cscale (/ sqrt (norm_sq st)) (represented (st_terms st) x)))
    by apply represented_rescale.
  cbn [st_num_qubits rescale]. rewrite vnorm_scale, <- norm_sq_vnorm.
  rewrite <- Rinv_mult, sqrt_sqrt by lra. field. lra.
Qed.

Lemma draw_bit_true (u p : R) : draw_bit u p = true -> u < p.
Proof. unfold draw_bit. destruct (Rlt_dec u p); [auto | discriminate]. Qed.

Lemma draw_bit_false (u p : R) : draw_bit u p = false -> p <= u.
Proof. unfold draw_bit. destruct (Rlt_dec u p); [discriminate | intros _; lra]. Qed.

(** the drawn branch has positive weight *)
Lemma project_drawn_pos (q : nat) (st : QuantumState) (u : R) :
  0 <= u < 1 -> 0 < norm_sq st ->
  0 < norm_sq (project_terms q (draw_bit u (prob_one q st)) st).
Proof.
  intros Hu Hpos. rewrite norm_sq_vnorm. cbn [st_num_qubits project_terms].
  rewrite vnorm_project. rewrite norm_sq_vnorm in Hpos.
  set (n := st_num_qubits st) in *. set (v := represented (st_terms st)) in *.
  pose proof (vnorm_split n q v) as Hs.
  pose proof (vmass_nonneg n q true v). pose proof (vmass_nonneg n q false v).
  destruct (draw_bit u (prob_one q st)) eqn:E.
  - apply draw_bit_true in E. rewrite prob_one_vmass in E. fold n v in E.
    destruct (Rle_lt_or_eq_dec 0 (vmass n q true v)) as [Hlt|Heq]; [lra|exact Hlt|].
    rewrite <- Heq in E. unfold Rdiv in E. rewrite Rmult_0_l in E. lra.
  - apply draw_bit_false in E. rewrite prob_one_vmass in E. fold n v in E.
    assert (vmass n q true v < vnorm n v).
    { apply (Rmult_lt_reg_r (/ vnorm n v)); [apply Rinv_0_lt_compat; lra|].
      rewrite Rinv_r by lra. unfold Rdiv in E. lra. }
    lra.
Qed.

Lemma measure_loop_collapse (qs : list nat) (u : nat -> R) :
  (forall j, 0 <= u j < 1) ->
  forall k st, 0 < norm_sq st ->
  st_num_qubits (snd (measure_loop qs u k st)) = st_num_qubits st /\
  length (fst (measure_loop qs u k st)) = length qs /\
  0 < norm_sq (snd (measure_loop qs u k st)) /\
  collapsed (represented (st_terms (snd (measure_loop qs u k st)))) qs
            (fst (measure_loop qs u k st)) /\
  (forall x, represented (st_terms st) x = C0 ->
             represented (st_terms (snd (measure_loop qs u k st))) x = C0).
Proof.
  intros Hu. induction qs as [|q qs IH]; intros k st Hpos.
  - simpl. repeat split; auto. intros x. left. constructor.
  - cbn [measure_loop].
    set (b := draw_bit (u k) (prob_one q st)).
    assert (Hp : 0 < norm_sq (project_terms q b st)) by (apply project_drawn_pos; auto).
    destruct (IH (Datatypes.S k) (project_terms q b st) Hp) as (Hn & Hl & Hpos' & Hc & Hz).
    destruct (measure_loop qs u (Datatypes.S k) (project_terms q b st)) as [bs st'].
    cbn [fst snd] in *. split; [|split; [|split; [|split]]].
    + rewrite Hn. reflexivity.
    + simpl. rewrite Hl. reflexivity.
    + exact Hpos'.
    + intros x. specialize (Hz x). rewrite represented_project in Hz.
      destruct (Bool.eqb (bit x q) b) eqn:E.
      * apply Bool.eqb_prop in E. destruct (Hc x) as [Hf|H0]; [left | right; exact H0].
        constructor; assumption.
      * right. apply Hz. reflexivity.
    + intros x H0. apply Hz. rewrite represented_project, H0.
      destruct (Bool.eqb _ _); reflexivity.
Qed.

Lemma measure_loop_stable (qs : list nat) (u : nat -> R) :
  (forall j, 0 <= u j < 1) ->
  forall bs k st, 0 < norm_sq st -> length bs = length qs ->
  collapsed (represented (st_terms st)) qs bs ->
  fst (measure_loop qs u k st) = bs.
Proof.
  intros Hu. induction qs as [|q qs IH]; intros bs k st Hpos Hlen Hc.
  - destruct bs; [reflexivity | discriminate].
  - destruct bs as [|b bs]; [discriminate|]. simpl in Hlen.
    set (v := represented (st_terms st)) in *.
    assert (Hmask : forall x, bit x q <> b -> v x = C0).
    { intros x Hne. destruct (Hc x) as [Hf|H0]; [|exact H0].
      inversion Hf; subst. contradiction. }
    assert (Hsame : forall x, represented (st_terms (project_terms q b st)) x = v x).
    { intros x. rewrite represented_project. fold v.
      destruct (Bool.eqb (bit x q) b) eqn:E; [reflexivity|].
      symmetry. apply Hmask. intros Hb. rewrite Hb, Bool.eqb_reflx in E. discriminate. }
    pose proof (vmass_zero (st_num_qubits st) q b v Hmask) as Hz.
    pose proof (vnorm_split (st_num_qubits st) q v) as Hs.
    rewrite norm_sq_vnorm in Hpos. fold v in Hpos.
    assert (Hdraw : draw_bit (u k) (prob_one q st) = b).
    { rewrite prob_one_vmass. fold v. unfold draw_bit. specialize (Hu k).
      destruct b; simpl in Hz.
      - assert (Hv : vnorm (st_num_qubits st) v = vmass (st_num_qubits st) q true v)
          by (rewrite Hs, Hz; ring).
        rewrite Hv in Hpos |- *. unfold Rdiv. rewrite Rinv_r by lra.
        destruct (Rlt_dec (u k) 1); [reflexivity | lra].
      - rewrite Hz. unfold Rdiv. rewrite Rmult_0_l.
        destruct (Rlt_dec (u k) 0); [lra | reflexivity]. }
    cbn [measure_loop]. rewrite Hdraw.
    assert (Hrest : fst (measure_loop qs u (Datatypes.S k) (project_terms q b st)) = bs).
    { apply IH; [| lia |].
      - rewrite norm_sq_vnorm. cbn [st_num_qubits project_terms].
        rewrite (vnorm_ext _ _ v) by exact Hsame. exact Hpos.
      - intros x. rewrite Hsame. destruct (Hc x) as [Hf|H0]; [|right; exact H0].
        inversion Hf; subst. left. assumption. }
    destruct (measure_loop qs u (Datatypes.S k) (project_terms q b st)) as [bs' st'].
    simpl in *. subst. reflexivity.
Qed.

(** ** Idempotence of collapse *)

Lemma Rsum_pos_witness (m : nat) (f : nat -> R) :
  0 < Rsum m f -> exists x, (x < m)%nat /\ f x <> 0.
Proof.
  induction m as [|m IH]; simpl; intros H; [lra|].
  destruct (Req_dec_T (f m) 0) as [E|E].
  - rewrite E, Rplus_0_r in H. destruct (IH H) as (x & Hx & Hf).
    exists x. split; [lia | exact Hf].
  - exists m. split; [lia | exact E].
Qed.

Lemma Rsum_single (m x0 : nat) (f : nat -> R) :
  (x0 < m)%nat -> (forall x, (x < m)%nat -> x <> x0 -> f x = 0) -> Rsum m f = f x0.
Proof.
  induction m as [|m IH]; intros Hx H; [lia|]. simpl.
  destruct (Nat.eq_dec x0 m) as [->|Hne].
  - rewrite (Rsum_zero m f); [ring|]. intros x Hx'. apply H; lia.
  - rewrite IH by (lia || (intros; apply H; lia)). rewrite (H m) by lia. ring.
Qed.

Lemma Cnorm2_C0 : Cnorm2 C0 = 0.
Proof. unfold Cnorm2. simpl. ring. Qed.

Lemma Forall2_bits_eq (qs : list nat) (bs : list bool) (x y : nat) :
  Forall2 (fun q b => bit x q = b) qs bs -> Forall2 (fun q b => bit y q = b) qs bs ->
  forall q, In q qs -> bit x q = bit y q.
Proof.
  intros Hx. revert y.
  induction Hx as [|q0 b0 qs' bs' Hb Hx' IH]; intros y Hy q Hin; [destruct Hin|].
  inversion Hy; subst.
  destruct Hin as [<-|Hin]; [congruence | apply IH; assumption].
Qed.

Lemma bits_eq_below (n x y : nat) :
  (x < 2 ^ n)%nat -> (y < 2 ^ n)%nat ->
  (forall q, (q < n)%nat -> bit x q = bit y q) -> x = y.
Proof.
  intros Hx Hy H. apply Nat.bits_inj. intros i. unfold bit in H.
  destruct (Nat.lt_ge_cases i n) as [Hi|Hi]; [apply H; exact Hi|].
  rewrite <- (Nat.mod_small x (2 ^ n)) by exact Hx.
  rewrite <- (Nat.mod_small y (2 ^ n)) by exact Hy.
  rewrite !Nat.mod_pow2_bits_high by exact Hi. reflexivity.
Qed.

Lemma st_num_qubits_rescale (st : QuantumState) :
  st_num_qubits (rescale st) = st_num_qubits st.
Proof. reflexivity. Qed.

Lemma collapsed_rescale (st : QuantumState) (qs : list nat) (bs : list bool) :
  collapsed (represented (st_terms st)) qs bs ->
  collapsed (represented (st_terms (rescale st))) qs bs.
Proof.
  intros H x. rewrite represented_rescale.
  destruct (H x) as [Hf|H0]; [left; exact Hf | right; rewrite H0; cring].
Qed.

Lemma measure_cons_ok (q : nat) (qs : list nat) (u : nat -> R) (st st' : QuantumState)
  (bs : list bool) :
  measure (q :: qs) u st = Ok (bs, st') ->
  qubits_in_range (st_num_qubits st) (q :: qs) && nodupb (q :: qs) = true /\
  bs = fst (measure_loop (q :: qs) u 0 st) /\
  st' = rescale (snd (measure_loop (q :: qs) u 0 st)).
Proof.
  unfold measure. destruct (qubits_in_range _ _ && nodupb _) eqn:E; [|discriminate].
  destruct (measure_loop (q :: qs) u 0 st) as [bs1 st1].
  intros H. injection H as <- <-. auto.
Qed.

Lemma measure_cons_eq (q : nat) (qs : list nat) (u : nat -> R) (st : QuantumState) :
  qubits_in_range (st_num_qubits st) (q :: qs) && nodupb (q :: qs) = true ->
  measure (q :: qs) u st
  = Ok (fst (measure_loop (q :: qs) u 0 st), rescale (snd (measure_loop (q :: qs) u 0 st))).
Proof.
  intros H. unfold measure. rewrite H.
  destruct (measure_loop (q :: qs) u 0 st); reflexivity.
Qed.

Lemma from_circuit_num_qubits (c : QuantumCircuit) (st : QuantumState) :
  from_circuit c = Ok st -> st_num_qubits st = num_qubits c.
Proof.
  unfold from_circuit. destruct (run_gates _ _ _); [|discriminate].
  intros H. injection H as <-. reflexivity.
Qed.

Lemma statevector_h1 :
  match from_circuit circuit_h1 with Ok st => to_statevector st | Err _ => [] end =
  [RtoC inv_sqrt2; C0; RtoC inv_sqrt2; C0].
Proof.
  unfold_model. split_list.
  all: try reflexivity; apply C_ext; simpl; sqrt2_solve.
Qed.

(** C4 (corrected): collapse is idempotent, for every draw sequence [u]:
    (a) after [project_normalized q b] succeeds, [measure [q]] returns [[b]];
    (b) after [measure qs] on a state of nonzero norm, measuring [qs] again
        returns the same bits;
    (c) after [measure qs] on a state of nonzero norm, with [qs] non-empty
        and naming every qubit, the statevector is one-hot with an
        amplitude of modulus one. *)
Theorem collapse_idempotent :
  (forall st q b u, (forall j, 0 <= u j < 1) ->
     match project_normalized q b st with
     | Ok st' => exists st'', measure [q] u st' = Ok ([b], st'')
     | Err _ => True
     end) /\
  (forall st qs u u', (forall j, 0 <= u j < 1) -> (forall j, 0 <= u' j < 1) ->
     0 < norm_sq st ->
     match measure qs u st with
     | Ok (bs, st') => exists st'', measure qs u' st' = Ok (bs, st'')
     | Err _ => True
     end) /\
  (forall st qs u, (forall j, 0 <= u j < 1) -> 0 < norm_sq st -> qs <> [] ->
     (forall q, (q < st_num_qubits st)%nat -> In q qs) ->
     match measure qs u st with
     | Ok (_, st') => one_hot (to_statevector st')
     | Err _ => True
     end).
Proof.
  split; [|split].
  - intros st q b u Hu.
    destruct (project_normalized q b st) as [st'|e] eqn:Ep; [|exact I].
    unfold project_normalized in Ep.
    destruct (negb (q <? st_num_qubits st)) eqn:Eq; [discriminate|].
    apply negb_false_iff in Eq.
    destruct (Req_dec_T (norm_sq (project_terms q b st)) 0) as [Hz|Hz]; [discriminate|].
    injection Ep as <-.
    assert (Hp : 0 < norm_sq (project_terms q b st)).
    { pose proof (vnorm_nonneg (st_num_qubits (project_terms q b st))
                    (represented (st_terms (project_terms q b st)))) as H0.
      rewrite <- norm_sq_vnorm in H0. lra. }
    eexists. rewrite measure_cons_eq.
    + f_equal. f_equal. apply measure_loop_stable; auto.
      * rewrite norm_sq_rescale by exact Hp. lra.
      * apply collapsed_rescale. intros x. rewrite represented_project.
        destruct (Bool.eqb (bit x q) b) eqn:E; [left | right; reflexivity].
        apply Bool.eqb_prop in E. constructor; [exact E | constructor].
    + rewrite st_num_qubits_rescale.
      change (st_num_qubits (project_terms q b st)) with (st_num_qubits st).
      cbn [qubits_in_range forallb nodupb existsb andb negb].
      rewrite Eq. reflexivity.
  - intros st qs u u' Hu Hu' Hpos.
    destruct qs as [|q qs]; [simpl; eexists; reflexivity|].
    destruct (measure (q :: qs) u st) as [[bs st']|e] eqn:Em; [|exact I].
    apply measure_cons_ok in Em as (Hchk & -> & ->).
    destruct (measure_loop_collapse (q :: qs) u Hu 0 st Hpos) as (Hn & Hl & Hp & Hc & _).
    eexists. rewrite measure_cons_eq.
    + f_equal. f_equal. apply measure_loop_stable; auto.
      * rewrite norm_sq_rescale by exact Hp. lra.
      * apply collapsed_rescale. exact Hc.
    + rewrite st_num_qubits_rescale, Hn. exact Hchk.
  - intros st qs u Hu Hpos Hne Hall.
    destruct qs as [|q qs]; [contradiction|].
    destruct (measure (q :: qs) u st) as [[bs st']|e] eqn:Em; [|exact I].
    apply measure_cons_ok in Em as (_ & -> & ->).
    destruct (measure_loop_collapse (q :: qs) u Hu 0 st Hpos) as (Hn & _ & Hp & Hc & _).
    set (st1 := snd (measure_loop (q :: qs) u 0 st)) in *.
    set (bs := fst (measure_loop (q :: qs) u 0 st)) in *.
    apply collapsed_rescale in Hc.
    pose proof (norm_sq_rescale st1 Hp) as H1.
    rewrite norm_sq_vnorm, st_num_qubits_rescale in H1.
    set (v := represented (st_terms (rescale st1))) in *.
    set (n := st_num_qubits st1) in *.
    assert (Hex : exists x0, (x0 < 2 ^ n)%nat /\ Cnorm2 (v x0) <> 0).
    { apply Rsum_pos_witness. unfold vnorm in H1. rewrite H1. lra. }
    destruct Hex as (x0 & Hx0 & Hnz).
    assert (Hzero : forall y, (y < 2 ^ n)%nat -> y <> x0 -> v y = C0).
    { intros y Hy Hyx. destruct (Hc y) as [Fy|Zy]; [|exact Zy].
      destruct (Hc x0) as [Fx|Zx]; [|rewrite Zx, Cnorm2_C0 in Hnz; contradiction].
      exfalso. apply Hyx. apply (bits_eq_below n); [exact Hy | exact Hx0|].
      intros q' Hq'. apply (Forall2_bits_eq (q :: qs) bs); [exact Fy | exact Fx|].
      apply Hall. rewrite <- Hn. exact Hq'. }
    assert (Hone : Cnorm2 (v x0) = 1).
    { rewrite <- H1. unfold vnorm. symmetry. apply (Rsum_single (2 ^ n) x0 (fun x => Cnorm2 (v x))); [exact Hx0|].
      intros y Hy Hyx. rewrite (Hzero y Hy Hyx). apply Cnorm2_C0. }
    exists x0. rewrite length_statevector, st_num_qubits_rescale. fold n.
    split; [exact Hx0|]. split.
    + rewrite nth_statevector by exact Hx0. exact Hone.
    + intros y Hy Hyx. rewrite nth_statevector by exact Hy. apply Hzero; assumption.
Qed.

Lemma collapse_idempotent_witness :
  exists st, from_circuit circuit_h1 = Ok st /\ 0 < norm_sq st /\
    (exists st1, project_normalized 1 true st = Ok st1 /\
       exists st2, measure [1%nat] (fun _ => 0) st1 = Ok ([true], st2)) /\
    (exists bs st1, measure [1; 0]%nat (fun _ => 1 / 4) st = Ok (bs, st1) /\
       exists st2, measure [1; 0]%nat (fun _ => 3 / 4) st1 = Ok (bs, st2)) /\
    (exists bs st1, measure [0; 1]%nat (fun _ => 3 / 4) st = Ok (bs, st1) /\
       one_hot (to_statevector st1)).
Proof.
  assert (Hu0 : forall j : nat, 0 <= (fun _ : nat => 0) j < 1) by (intros; lra).
  assert (Hu1 : forall j : nat, 0 <= (fun _ : nat => 1 / 4) j < 1) by (intros; lra).
  assert (Hu3 : forall j : nat, 0 <= (fun _ : nat => 3 / 4) j < 1) by (intros; lra).
  pose proof statevector_h1 as Hv.
  destruct (from_circuit circuit_h1) as [st|e] eqn:Ec; [|discriminate Hv].
  pose proof (from_circuit_num_qubits _ _ Ec) as Hn. simpl in Hn.
  assert (Hw : forall y, (y < 4)%nat ->
            represented (st_terms st) y = nth y [RtoC inv_sqrt2; C0; RtoC inv_sqrt2; C0] C0).
  { intros y Hy. rewrite <- Hv. rewrite nth_statevector; [reflexivity|]. rewrite Hn. exact Hy. }
  pose proof sqrt2_sq as Hs2. pose proof sqrt2_pos as Hs0.
  assert (Hi : 0 < / sqrt 2) by (apply Rinv_0_lt_compat; lra).
  assert (Hpos : 0 < norm_sq st).
  { rewrite norm_sq_vnorm, Hn. unfold vnorm. change (2 ^ 2)%nat with 4%nat. simpl Rsum.
    rewrite !Hw by lia. unfold_model. nra. }
  exists st. split; [reflexivity|]. split; [exact Hpos|]. split; [|split].
  - assert (Hp : exists st1, project_normalized 1 true st = Ok st1).
    { unfold project_normalized. rewrite Hn. cbn [Nat.ltb Nat.leb negb].
      destruct (Req_dec_T (norm_sq (project_terms 1 true st)) 0) as [Hz|Hz];
        [exfalso | eexists; reflexivity].
      rewrite norm_sq_vnorm in Hz.
      change (st_num_qubits (project_terms 1 true st)) with (st_num_qubits st) in Hz.
      rewrite vnorm_project, Hn in Hz. unfold vmass in Hz.
      change (2 ^ 2)%nat with 4%nat in Hz. simpl Rsum in Hz.
      rewrite !Hw in Hz by lia. simpl nth in Hz. unfold Cnorm2, RtoC, C0, inv_sqrt2 in Hz.
      cbn [re im] in Hz. nra. }
    destruct Hp as [st1 Hp]. exists st1. split; [exact Hp|].
    pose proof (proj1 collapse_idempotent st 1%nat true (fun _ => 0) Hu0) as H.
    rewrite Hp in H. exact H.
  - pose proof (proj1 (proj2 collapse_idempotent) st [1; 0]%nat
                  (fun _ => 1 / 4) (fun _ => 3 / 4) Hu1 Hu3 Hpos) as H.
    rewrite measure_cons_eq in H |- * by (rewrite Hn; reflexivity).
    do 2 eexists. split; [reflexivity | exact H].
  - pose proof (proj2 (proj2 collapse_idempotent) st [0; 1]%nat (fun _ => 3 / 4) Hu3 Hpos)
      as H.
    rewrite measure_cons_eq in H |- * by (rewrite Hn; reflexivity).
    do 2 eexists. split; [reflexivity|]. apply H.
    + discriminate.
    + intros q Hq. rewrite Hn in Hq. destruct q as [|[|q]]; simpl; auto. lia.
Defined.

(** C4 (counterexample): after H(1) on two qubits, measuring qubit 0 alone
    leaves a statevector that is not one-hot, whatever the draw. *)
Theorem measure_partial_not_one_hot :
  exists st, from_circuit circuit_h1 = Ok st /\ 0 < norm_sq st /\
    match measure [0%nat] (fun _ => 0) st with
    | Ok (_, st') => ~ one_hot (to_statevector st')
    | Err _ => False
    end.
Proof.
  pose proof statevector_h1 as Hv.
  destruct (from_circuit circuit_h1) as [st|e] eqn:Ec; [|discriminate Hv].
  pose proof (from_circuit_num_qubits _ _ Ec) as Hn. simpl in Hn.
  assert (Hw : forall y, (y < 4)%nat ->
            represented (st_terms st) y = nth y [RtoC inv_sqrt2; C0; RtoC inv_sqrt2; C0] C0).
  { intros y Hy. rewrite <- Hv. rewrite nth_statevector; [reflexivity|]. rewrite Hn. exact Hy. }
  exists st. split; [reflexivity|]. split.
  { rewrite norm_sq_vnorm, Hn. unfold vnorm. change (2 ^ 2)%nat with 4%nat. simpl Rsum.
    rewrite !Hw by lia. unfold_model. pose proof sqrt2_sq. pose proof sqrt2_pos.
    assert (0 < / sqrt 2) by (apply Rinv_0_lt_compat; lra). nra. }
  rewrite measure_cons_eq by (rewrite Hn; reflexivity).
  cbn [measure_loop fst snd].
  set (b := draw_bit _ (prob_one 0 st)). clearbody b.
  set (s := / sqrt (norm_sq (project_terms 0 b st))).
  assert (Hent : forall y, (y < 4)%nat ->
            nth y (to_statevector (rescale (project_terms 0 b st))) C0
            = Cscale s (if Bool.eqb (bit y 0) b
                        then nth y [RtoC inv_sqrt2; C0; RtoC inv_sqrt2; C0] C0 else C0)).
  { intros y Hy. rewrite nth_statevector
      by (rewrite st_num_qubits_rescale; change (y < 2 ^ st_num_qubits st)%nat; rewrite Hn; exact Hy).
    rewrite represented_rescale, represented_project, Hw by exact Hy. reflexivity. }
  intros (x0 & Hx0 & H1 & Hall).
  rewrite length_statevector, st_num_qubits_rescale in Hx0, Hall.
  change (st_num_qubits (project_terms 0 b st)) with (st_num_qubits st) in Hx0, Hall.
  rewrite Hn in Hx0, Hall. simpl in Hx0, Hall.
  pose proof sqrt2_pos.
  assert (Hi : 0 < inv_sqrt2) by (apply Rinv_0_lt_compat; lra).
  destruct b; destruct x0 as [|[|[|[|x0]]]]; try lia;
    rewrite Hent in H1 by lia.
  all: try (specialize (Hall 0%nat ltac:(lia) ltac:(discriminate));
            rewrite Hent in Hall by lia).
  all: try (specialize (Hall 2%nat ltac:(lia) ltac:(discriminate));
            rewrite Hent in Hall by lia).
  all: unfold Cnorm2, Cscale, RtoC, C0 in *; simpl in *.
  all: try injection Hall as Hall _.
  all: nra.
Qed.
(** ** Every gate keeps the squared length of the represented vector *)

Section Bits.

Local Open Scope nat_scope.

Lemma land_pow2_zero (x q : nat) :
  Nat.testbit x q = false -> Nat.land x (2 ^ q) = 0.
Proof.
  intros E. apply Nat.bits_inj. intros i.
  rewrite Nat.land_spec, Nat.pow2_bits_eqb, Nat.bits_0.
  destruct (Nat.eqb_spec q i) as [<-|_]; [rewrite E | apply andb_false_r]; reflexivity.
Qed.

Lemma flip_bit_lxor (x q : nat) : flip_bit x q = Nat.lxor x (2 ^ q).
Proof.
  unfold flip_bit, bit. destruct (Nat.testbit x q) eqn:E.
  - assert (Hl : Nat.testbit (Nat.lxor x (2 ^ q)) q = false)
      by (rewrite Nat.lxor_spec, Nat.pow2_bits_true, E; reflexivity).
    pose proof (Nat.add_nocarry_lxor _ _ (land_pow2_zero _ _ Hl)) as Ha.
    rewrite Nat.lxor_assoc, Nat.lxor_nilpotent, Nat.lxor_0_r in Ha. lia.
  - apply Nat.add_nocarry_lxor, land_pow2_zero, E.
Qed.

Lemma bit_flip_same (x q : nat) : bit (flip_bit x q) q = negb (bit x q).
Proof.
  unfold bit. rewrite flip_bit_lxor, Nat.lxor_spec, Nat.pow2_bits_true.
  apply xorb_true_r.
Qed.

Lemma bit_flip_other (x q r : nat) : q <> r -> bit (flip_bit x q) r = bit x r.
Proof.
  intros H. unfold bit. rewrite flip_bit_lxor, Nat.lxor_spec, Nat.pow2_bits_eqb.
  apply Nat.eqb_neq in H. rewrite H. apply xorb_false_r.
Qed.

Lemma flip_bit_flip (x q : nat) : flip_bit (flip_bit x q) q = x.
Proof.
  rewrite !flip_bit_lxor, Nat.lxor_assoc, Nat.lxor_nilpotent. apply Nat.lxor_0_r.
Qed.

Lemma flip_bit_comm (x q r : nat) : flip_bit (flip_bit x q) r = flip_bit (flip_bit x r) q.
Proof.
  rewrite !flip_bit_lxor, !Nat.lxor_assoc, (Nat.lxor_comm (2 ^ q)). reflexivity.
Qed.

Lemma flip_bit_lt (n x q : nat) : x < 2 ^ n -> q < n -> flip_bit x q < 2 ^ n.
Proof.
  intros Hx Hq.
  assert (E : flip_bit x q = flip_bit x q mod 2 ^ n).
  { apply Nat.bits_inj. intros i. destruct (Nat.lt_ge_cases i n) as [Hi|Hi].
    - rewrite Nat.mod_pow2_bits_low by exact Hi. reflexivity.
    - rewrite Nat.mod_pow2_bits_high by exact Hi.
      change (bit (flip_bit x q) i = false). rewrite bit_flip_other by lia. unfold bit.
      rewrite <- (Nat.mod_small x (2 ^ n)) by exact Hx.
      apply Nat.mod_pow2_bits_high, Hi. }
  rewrite E. apply Nat.mod_upper_bound, Nat.pow_nonzero. lia.
Qed.

Lemma clear_bit_flip (x q : nat) : clear_bit x q = if bit x q then flip_bit x q else x.
Proof. unfold clear_bit, flip_bit. destruct (bit x q); reflexivity. Qed.

Lemma set_bit_flip (x q : nat) : set_bit x q = if bit x q then x else flip_bit x q.
Proof. unfold set_bit, flip_bit. destruct (bit x q); reflexivity. Qed.

End Bits.

Lemma fold_Rplus_acc (a : R) (l : list R) :
  fold_right Rplus a l = fold_right Rplus 0 l + a.
Proof. induction l as [|y l IH]; simpl; [ring|]. rewrite IH. ring. Qed.

Lemma Rsum_fold (m : nat) (f : nat -> R) :
  Rsum m f = fold_right Rplus 0 (map f (seq 0 m)).
Proof.
  induction m as [|m IH]; [reflexivity|].
  rewrite seq_S, map_app, fold_right_app. simpl. rewrite fold_Rplus_acc, IH. ring.
Qed.

Lemma fold_Rplus_perm (l l' : list R) :
  Permutation l l' -> fold_right Rplus 0 l = fold_right Rplus 0 l'.
Proof. induction 1; simpl; congruence || ring. Qed.

(** reindexing a finite sum by an involution of its range *)
Lemma Rsum_involution (m : nat) (f : nat -> R) (sigma : nat -> nat) :
  (forall x, (x < m)%nat -> (sigma x < m)%nat) ->
  (forall x, (x < m)%nat -> sigma (sigma x) = x) ->
  Rsum m (fun x => f (sigma x)) = Rsum m f.
Proof.
  intros Hr Hi. rewrite !Rsum_fold, <- map_map. apply fold_Rplus_perm, Permutation_map.
  apply NoDup_Permutation.
  - apply NoDup_map_NoDup_ForallPairs; [|apply seq_NoDup].
    intros x y Hx Hy E. apply in_seq in Hx, Hy.
    rewrite <- (Hi x), <- (Hi y), E by lia. reflexivity.
  - apply seq_NoDup.
  - intros x. rewrite in_map_iff, in_seq. split.
    + intros (y & <- & Hy). apply in_seq in Hy. assert (sigma y < m)%nat by (apply Hr; lia). lia.
    + intros Hx. exists (sigma x). rewrite in_seq. assert (sigma x < m)%nat by (apply Hr; lia).
      split; [apply Hi|]; lia.
Qed.

(** a sum over the indices is a sum over the pairs [x], [x] with bit [q] flipped *)
Lemma Rsum_pairs (n q : nat) (F : nat -> R) :
  (q < n)%nat ->
  Rsum (2 ^ n) F = Rsum (2 ^ n) (fun x => if bit x q then 0 else F x + F (flip_bit x q)).
Proof.
  intros Hq.
  transitivity (1 * Rsum (2 ^ n) (fun x => if bit x q then 0 else F x)
                + Rsum (2 ^ n) (fun x => if bit x q then F x else 0)).
  { rewrite <- Rsum_lin. apply Rsum_ext. intros x _. destruct (bit x q); ring. }
  rewrite <- (Rsum_involution (2 ^ n) (fun x => if bit x q then F x else 0)
                (fun x => flip_bit x q)).
  - rewrite <- Rsum_lin. apply Rsum_ext. intros x _. rewrite bit_flip_same.
    destruct (bit x q); simpl; ring.
  - intros x Hx. apply flip_bit_lt; assumption.
  - intros x _. apply flip_bit_flip.
Qed.

Lemma apply1_eq (m : M2) (a : nat) (v : vec) (x : nat) :
  apply1 m a v x =
  if bit x a then Cadd (Cmul (m10 m) (v (clear_bit x a))) (Cmul (m11 m) (v (set_bit x a)))
  else Cadd (Cmul (m00 m) (v (clear_bit x a))) (Cmul (m01 m) (v (set_bit x a))).
Proof. reflexivity. Qed.

Lemma vnorm_apply1 (n : nat) (m : M2) (q : nat) (v : vec) :
  (q < n)%nat -> unitary2 m -> vnorm n (apply1 m q v) = vnorm n v.
Proof.
  intros Hq Hm. unfold vnorm.
  rewrite (Rsum_pairs n q (fun x => Cnorm2 (apply1 m q v x))),
          (Rsum_pairs n q (fun x => Cnorm2 (v x))) by exact Hq.
  apply Rsum_ext. intros x _. destruct (bit x q) eqn:E; [reflexivity|].
  rewrite !apply1_eq, !clear_bit_flip, !set_bit_flip, !bit_flip_same, E, flip_bit_flip.
  apply Hm.
Qed.

Lemma vnorm_apply_cx (n c t : nat) (v : vec) :
  (c < n)%nat -> (t < n)%nat -> c <> t -> vnorm n (apply_cx c t v) = vnorm n v.
Proof.
  intros Hc Ht Hct. unfold vnorm, apply_cx.
  rewrite <- (Rsum_involution (2 ^ n) (fun x => Cnorm2 (v x))
                (fun x => if bit x c then flip_bit x t else x)).
  - apply Rsum_ext. intros x _. destruct (bit x c); reflexivity.
  - intros x Hx. destruct (bit x c); [apply flip_bit_lt|]; assumption.
  - intros x _. destruct (bit x c) eqn:E.
    + rewrite bit_flip_other, E by congruence. apply flip_bit_flip.
    + rewrite E. reflexivity.
Qed.

Lemma vnorm_apply_swap (n a b : nat) (v : vec) :
  (a < n)%nat -> (b < n)%nat -> a <> b -> vnorm n (apply_swap a b v) = vnorm n v.
Proof.
  intros Ha Hb Hab. unfold vnorm, apply_swap.
  apply (Rsum_involution (2 ^ n) (fun x => Cnorm2 (v x)) (fun x => swap_bits x a b)).
  - intros x Hx. unfold swap_bits. destruct (Bool.eqb _ _); [|apply flip_bit_lt; [apply flip_bit_lt|]]; assumption.
  - intros x _. unfold swap_bits.
    destruct (bit x a) eqn:Ea, (bit x b) eqn:Eb; simpl; rewrite ?Ea, ?Eb; try reflexivity;
      rewrite bit_flip_other, bit_flip_same, bit_flip_same, bit_flip_other, Ea, Eb by congruence;
      simpl; rewrite flip_bit_comm, flip_bit_flip, flip_bit_flip; reflexivity.
Qed.

Lemma unitary_H : unitary2 mat_H.
Proof.
  intros a b. unfold Cnorm2, mat_H, inv_sqrt2, RtoC. simpl.
  pose proof sqrt2_sq. pose proof sqrt2_pos.
  assert (Hi : / sqrt 2 * / sqrt 2 = / 2) by (rewrite <- Rinv_mult, H; reflexivity).
  set (i := / sqrt 2) in *.
  transitivity (2 * (i * i) * (re a * re a + im a * im a + (re b * re b + im b * im b)));
    [ring|]. rewrite Hi. field.
Qed.

Lemma unitary_X : unitary2 mat_X.
Proof. intros a b. unfold Cnorm2. simpl. ring. Qed.

Lemma unitary_Y : unitary2 mat_Y.
Proof. intros a b. unfold Cnorm2. simpl. ring. Qed.

Lemma unitary_Z : unitary2 mat_Z.
Proof. intros a b. unfold Cnorm2. simpl. ring. Qed.

Lemma unitary_S : unitary2 mat_S.
Proof. intros a b. unfold Cnorm2. simpl. ring. Qed.

Lemma unitary_SDG : unitary2 mat_SDG.
Proof. intros a b. unfold Cnorm2. simpl. ring. Qed.

Lemma unitary_phase (e : C) : Cnorm2 e = 1 -> unitary2 (mat_phase e).
Proof.
  intros He a b. simpl.
  transitivity (Cnorm2 a + Cnorm2 e * Cnorm2 b); [unfold Cnorm2; simpl; ring|].
  rewrite He. ring.
Qed.

Create HintDb unitary.
#[local] Hint Resolve unitary_H unitary_X unitary_Y unitary_Z unitary_S unitary_SDG : unitary.

Lemma vnorm_apply_clifford (n : nat) (g : gate_name) (qs : list nat) (v : vec) :
  qubits_in_range n qs = true -> nodupb qs = true ->
  vnorm n (apply_clifford g qs v) = vnorm n v.
Proof.
  unfold qubits_in_range. intros Hr Hd.
  destruct qs as [|a [|b [|c qs]]]; cbn [forallb nodupb existsb] in Hr, Hd;
    rewrite ?andb_true_r in Hr.
  - destruct g; reflexivity.
  - apply Nat.ltb_lt in Hr.
    destruct g; cbn [apply_clifford]; try reflexivity;
      rewrite ?vnorm_apply1 by auto with unitary; reflexivity.
  - apply andb_true_iff in Hr as [Ha Hb]. apply Nat.ltb_lt in Ha, Hb.
    rewrite orb_false_r in Hd. apply andb_true_iff in Hd as [Hd _].
    apply negb_true_iff, Nat.eqb_neq in Hd.
    destruct g; cbn [apply_clifford]; try reflexivity.
    + apply vnorm_apply_cx; assumption.
    + rewrite vnorm_apply1, vnorm_apply_cx, vnorm_apply1 by auto with unitary. reflexivity.
    + apply vnorm_apply_swap; assumption.
  - destruct g; reflexivity.
Qed.

(** vector operations that commute with the term sum *)
Definition lin_op (op : vec -> vec) : Prop :=
  (forall v w, (forall x, v x = w x) -> forall x, op v x = op w x) /\
  (forall ts x, represented (map_op op ts) x = op (represented ts) x).

Lemma lin_op_id : lin_op (fun v => v).
Proof. split; [auto | apply represented_id]. Qed.

Lemma lin_op_apply1 (m : M2) (a : nat) : lin_op (apply1 m a).
Proof.
  split; [|apply represented_apply1].
  intros v w H x. rewrite !apply1_eq, !H. reflexivity.
Qed.

Lemma lin_op_cx (c t : nat) : lin_op (apply_cx c t).
Proof.
  split.
  - intros v w H x. unfold apply_cx. rewrite !H. reflexivity.
  - intros ts x. induction ts as [|[c0 v] ts IH].
    + unfold apply_cx. destruct (bit x c); reflexivity.
    + change (map_op (apply_cx c t) ((c0, v) :: ts)) with ((c0, apply_cx c t v) :: map_op (apply_cx c t) ts).
      rewrite !represented_cons, IH. unfold apply_cx. destruct (bit x c); reflexivity.
Qed.

Lemma lin_op_swap (a b : nat) : lin_op (apply_swap a b).
Proof.
  split.
  - intros v w H x. unfold apply_swap. rewrite H. reflexivity.
  - intros ts x. induction ts as [|[c0 v] ts IH]; [reflexivity|].
    change (map_op (apply_swap a b) ((c0, v) :: ts)) with ((c0, apply_swap a b v) :: map_op (apply_swap a b) ts).
    rewrite !represented_cons, IH. reflexivity.
Qed.

Lemma lin_op_comp (f g : vec -> vec) : lin_op f -> lin_op g -> lin_op (fun v => f (g v)).
Proof.
  intros [Pf Rf] [Pg Rg]. split.
  - intros v w H. apply Pf, Pg, H.
  - intros ts x. replace (map_op (fun v => f (g v)) ts) with (map_op f (map_op g ts))
      by (unfold map_op; rewrite map_map; reflexivity).
    rewrite Rf. apply Pf. apply Rg.
Qed.

Lemma lin_op_clifford (g : gate_name) (qs : list nat) : lin_op (apply_clifford g qs).
Proof.
  destruct g; destruct qs as [|a [|b [|c qs]]];
    repeat first [ exact lin_op_id | apply lin_op_apply1 | apply lin_op_cx | apply lin_op_swap
                 | apply (lin_op_comp (apply1 _ _)) | apply (lin_op_comp (apply_cx _ _)) ].
Qed.

Lemma represented_inject_t (e : C) (q : nat) (ts : list term) (x : nat) :
  represented (inject_t e q ts) x = apply1 (mat_phase e) q (represented ts) x.
Proof.
  induction ts as [|[c v] ts IH].
  - rewrite apply1_eq. destruct (bit x q); cring.
  - change (inject_t e q ((c, v) :: ts))
      with ((Cmul (fst (t_pair e)) c, v) :: (Cmul (snd (t_pair e)) c, apply1 mat_Z q v)
              :: inject_t e q ts).
    rewrite !represented_cons, IH, apply1_Z, !apply1_eq, clear_bit_flip, set_bit_flip.
    destruct (bit x q); apply C_ext; simpl; field.
Qed.

Lemma vnorm_inject_t (n : nat) (e : C) (q : nat) (ts : list term) :
  (q < n)%nat -> Cnorm2 e = 1 ->
  vnorm n (represented (inject_t e q ts)) = vnorm n (represented ts).
Proof.
  intros Hq He. rewrite (vnorm_ext _ _ _ (represented_inject_t e q ts)).
  apply vnorm_apply1; [exact Hq | apply unitary_phase, He].
Qed.

Lemma Cnorm2_omega : Cnorm2 omega = 1.
Proof. unfold Cnorm2, omega. simpl. pose proof sqrt2_sq. nra. Qed.

Lemma Cnorm2_conj_omega : Cnorm2 (Cconj omega) = 1.
Proof. unfold Cnorm2, Cconj, omega. simpl. pose proof sqrt2_sq. nra. Qed.

Lemma apply_gate_terms_vnorm (n : nat) (g : QuantumGate) (ts ts' : list term) :
  apply_gate_terms n g ts = Ok ts' -> vnorm n (represented ts') = vnorm n (represented ts).
Proof.
  unfold apply_gate_terms.
  destruct (negb (qubits_in_range n (qubits g))) eqn:Hr; [discriminate|].
  destruct (Nat.eqb (length (qubits g)) (arity (name g)) && nodupb (qubits g)) eqn:Ha;
    [|discriminate]. cbv beta iota.
  apply negb_false_iff in Hr. apply andb_true_iff in Ha as [_ Hd].
  assert (Hcl : forall gn qs, qubits_in_range n qs = true -> nodupb qs = true ->
            vnorm n (represented (map (fun tm : term => (fst tm, apply_clifford gn qs (snd tm))) ts))
            = vnorm n (represented ts)).
  { intros gn qs Hr' Hd'.
    change (map (fun tm : term => (fst tm, apply_clifford gn qs (snd tm))) ts)
      with (map_op (apply_clifford gn qs) ts).
    rewrite (vnorm_ext _ _ _ (proj2 (lin_op_clifford gn qs) ts)).
    apply vnorm_apply_clifford; assumption. }
  destruct g as [gn qs]. cbn [name qubits] in *.
  assert (Hq : forall q, qs = [q] -> (q < n)%nat).
  { intros q ->. unfold qubits_in_range in Hr. simpl in Hr.
    rewrite andb_true_r in Hr. apply Nat.ltb_lt, Hr. }
  destruct gn; destruct qs as [|q [|q' qs]]; intros H; cbv beta iota in H;
    apply (f_equal (fun r => match r with Ok l => l | Err _ => ts end)) in H;
    cbv beta iota in H; subst ts'; try (apply Hcl; assumption).
  - apply vnorm_inject_t; [apply Hq; reflexivity | apply Cnorm2_omega].
  - apply vnorm_inject_t; [apply Hq; reflexivity | apply Cnorm2_conj_omega].
Qed.

Lemma run_gates_vnorm (n : nat) (gs : list QuantumGate) (ts ts' : list term) :
  run_gates n gs ts = Ok ts' -> vnorm n (represented ts') = vnorm n (represented ts).
Proof.
  revert ts. induction gs as [|g gs IH]; intros ts H; simpl in H.
  - injection H as <-. reflexivity.
  - destruct (apply_gate_terms n g ts) as [ts1|e] eqn:Hg; [|discriminate].
    rewrite (IH ts1 H). apply (apply_gate_terms_vnorm n g), Hg.
Qed.

Lemma vnorm_zero_vec (n : nat) : vnorm n (represented [(C1, zero_vec)]) = 1.
Proof.
  unfold vnorm. rewrite (Rsum_single (2 ^ n) 0).
  - unfold Cnorm2. simpl. ring.
  - pose proof (Nat.pow_nonzero 2 n). lia.
  - intros x _ Hx. unfold represented. cbn [fold_right fst snd]. unfold zero_vec.
    apply Nat.eqb_neq in Hx. rewrite Hx.
    unfold Cnorm2. simpl. ring.
Qed.

Lemma from_circuit_norm_sq (c : QuantumCircuit) (st : QuantumState) :
  from_circuit c = Ok st -> norm_sq st = 1.
Proof.
  unfold from_circuit.
  destruct (run_gates (num_qubits c) (gates c) [(C1, zero_vec)]) as [ts|e] eqn:Hr;
    [|discriminate].
  intros H. injection H as <-. rewrite norm_sq_vnorm. cbn [st_num_qubits st_terms].
  rewrite (run_gates_vnorm _ _ _ _ Hr). apply vnorm_zero_vec.
Qed.

Lemma im_Csum (m : nat) (f : nat -> C) : im (Csum m f) = Rsum m (fun x => im (f x)).
Proof. induction m as [|m IH]; simpl; [reflexivity|]. rewrite IH. reflexivity. Qed.

(** [<Psi|Psi>] is real *)
Lemma inner_product_self (st : QuantumState) :
  inner_product st st = Ok (RtoC (norm_sq st)).
Proof.
  unfold inner_product. rewrite Nat.eqb_refl. f_equal. apply C_ext; [reflexivity|].
  rewrite terms_inner_vdot.
  rewrite (vdot_ext _ _ (represented (st_terms st)) _ (represented (st_terms st)));
    [| reflexivity | apply represented_id].
  unfold vdot. rewrite im_Csum. cbn [im RtoC].
  apply Rsum_zero. intros x _. simpl. ring.
Qed.

(** C3: the state [from_circuit] returns for any circuit of the gate set
    (all unitary, and no renormalization during the construction) has
    [<Psi|Psi> = 1] and [norm() = 1], so [|norm() - 1| < 1e-10]. *)
Theorem from_circuit_norm (c : QuantumCircuit) (st : QuantumState) :
  from_circuit c = Ok st ->
  norm_sq st = 1 /\ norm st = 1 /\ Rabs (norm st - 1) < / 10 ^ 10.
Proof.
  intros H. pose proof (from_circuit_norm_sq c st H) as Hn.
  assert (E : norm st = 1) by (unfold norm; rewrite Hn; apply sqrt_1).
  split; [exact Hn|]. split; [exact E|]. rewrite E, Rminus_diag, Rabs_R0.
  apply Rinv_0_lt_compat, pow_lt. lra.
Qed.

Lemma from_circuit_norm_witness :
  exists st, from_circuit circuit_htcx = Ok st /\
    norm_sq st = 1 /\ norm st = 1 /\ Rabs (norm st - 1) < / 10 ^ 10.
Proof.
  eexists. split; [reflexivity|]. apply (from_circuit_norm circuit_htcx). reflexivity.
Defined.

(** C5: [a.inner_product(b)] with equal qubit counts is
    [<a|b> = sum_x conj(a_x) b_x], the left argument conjugated; two
    states built from the same circuit give [1]; a qubit-count mismatch is
    a value error. *)
Theorem inner_product_spec :
  (forall a b, st_num_qubits a = st_num_qubits b ->
     inner_product a b =
     Ok (vdot (st_num_qubits a) (represented (st_terms a)) (represented (st_terms b)))) /\
  (forall c a b, from_circuit c = Ok a -> from_circuit c = Ok b -> inner_product a b = Ok C1) /\
  (forall a b, st_num_qubits a <> st_num_qubits b -> inner_product a b = Err ValueError).
Proof.
  split; [|split].
  - intros a b E. unfold inner_product. rewrite E, Nat.eqb_refl, terms_inner_vdot, <- E.
    f_equal. apply vdot_ext; [reflexivity | apply represented_id].
  - intros c a b Ha Hb. rewrite Ha in Hb. injection Hb as <-.
    rewrite inner_product_self, (from_circuit_norm_sq c a Ha). reflexivity.
  - intros a b E. unfold inner_product. apply Nat.eqb_neq in E. rewrite E. reflexivity.
Qed.

Lemma inner_product_spec_witness :
  (exists st, from_circuit circuit_ht = Ok st /\ inner_product st st = Ok C1) /\
  inner_product state_000 {| st_num_qubits := 2; st_terms := [(C1, zero_vec)] |}
  = Err ValueError /\
  inner_product state_000 state_000
  = Ok (vdot 3 (represented [(C1, zero_vec)]) (represented [(C1, zero_vec)])).
Proof.
  split; [|split].
  - eexists. split; [reflexivity|].
    apply (proj1 (proj2 inner_product_spec) circuit_ht); reflexivity.
  - apply (proj2 (proj2 inner_product_spec)). simpl. lia.
  - apply (proj1 inner_product_spec). reflexivity.
Defined.

(** ** The random-circuit generator of the validation tests *)

Section QasmGeneratorProps.

Local Open Scope nat_scope.

Lemma length_list_set {A} (l : list A) (i : nat) (v : A) :
  length (list_set l i v) = length l.
Proof.
  revert i. induction l as [|x l IH]; intros [|i]; simpl; auto.
Qed.

Lemma nth_list_set_eq {A} (l : list A) (i : nat) (v d : A) :
  i < length l -> nth i (list_set l i v) d = v.
Proof.
  revert i. induction l as [|x l IH]; intros [|i] Hi; simpl in *; try lia; auto.
  apply IH. lia.
Qed.

Lemma nth_list_set_neq {A} (l : list A) (i j : nat) (v d : A) :
  i <> j -> nth j (list_set l i v) d = nth j l d.
Proof.
  revert i j. induction l as [|x l IH]; intros [|i] [|j] Hij; simpl; auto; try lia.
Qed.

Lemma list_set_perm {A} (l : list A) (i : nat) (v d : A) :
  i < length l -> Permutation (v :: l) (nth i l d :: list_set l i v).
Proof.
  revert i. induction l as [|x l IH]; intros [|i] Hi; simpl in *; try lia.
  - apply perm_swap.
  - eapply perm_trans; [apply perm_swap|].
    eapply perm_trans; [apply perm_skip, (IH i); lia|].
    apply perm_swap.
Qed.

Lemma py_swap_perm {A} (d : A) (x : list A) (i j : nat) :
  i < length x -> j < length x -> Permutation x (py_swap d x i j).
Proof.
  intros Hi Hj. unfold py_swap.
  set (xi := nth i x d). set (xj := nth j x d).
  assert (H1 : Permutation (xj :: x) (xi :: list_set x i xj)) by (apply list_set_perm; exact Hi).
  assert (H2 : Permutation (xi :: list_set x i xj)
                 (nth j (list_set x i xj) d :: list_set (list_set x i xj) j xi))
    by (apply list_set_perm; rewrite length_list_set; exact Hj).
  assert (E : nth j (list_set x i xj) d = xj).
  { destruct (Nat.eq_dec i j) as [<-|Hne].
    - apply nth_list_set_eq. exact Hi.
    - rewrite nth_list_set_neq by exact Hne. reflexivity. }
  rewrite E in H2.
  apply (Permutation_cons_inv (a := xj)). eapply perm_trans; eassumption.
Qed.

Lemma length_py_swap {A} (d : A) (x : list A) (i j : nat) :
  length (py_swap d x i j) = length x.
Proof. unfold py_swap. rewrite !length_list_set. reflexivity. Qed.

Lemma shuffle_loop_length (P : py_random) {A} (d : A) (i : nat) (x : list A) (g : rng P) :
  length (fst (shuffle_loop P d i x g)) = length x.
Proof.
  revert x g. induction i as [|i IH]; intros x g; [reflexivity|].
  cbn [shuffle_loop]. destruct (randbelow P g (Datatypes.S (Datatypes.S i))) as [j g'].
  rewrite IH. apply length_py_swap.
Qed.

Lemma shuffle_loop_perm (P : py_random) {A} (d : A) (i : nat) (x : list A) (g : rng P) :
  randbelow_ok P -> i <= length x - 1 -> Permutation x (fst (shuffle_loop P d i x g)).
Proof.
  intros Hr. revert x g. induction i as [|i IH]; intros x g Hi; [reflexivity|].
  cbn [shuffle_loop].
  pose proof (Hr g (Datatypes.S (Datatypes.S i)) ltac:(lia)) as Hj.
  destruct (randbelow P g (Datatypes.S (Datatypes.S i))) as [j g']. simpl in Hj.
  eapply perm_trans; [apply (py_swap_perm d x (Datatypes.S i) j); lia|].
  apply IH. rewrite length_py_swap. lia.
Qed.

Lemma py_shuffle_perm (P : py_random) {A} (d : A) (x : list A) (g : rng P) :
  randbelow_ok P -> Permutation x (fst (py_shuffle P d x g)).
Proof. intros Hr. apply shuffle_loop_perm; [exact Hr | lia]. Qed.

Lemma py_shuffle_length (P : py_random) {A} (d : A) (x : list A) (g : rng P) :
  length (fst (py_shuffle P d x g)) = length x.
Proof. apply shuffle_loop_length. Qed.

Lemma py_choice_nonempty (P : py_random) {A} (d : A) (seq : list A) (g : rng P) :
  seq <> [] ->
  py_choice P d seq g = PyOk (nth (fst (randbelow P g (length seq))) seq d,
                              snd (randbelow P g (length seq))).
Proof.
  intros Hne. destruct seq as [|x seq]; [congruence|].
  unfold py_choice. destruct (randbelow P g (length (x :: seq))). reflexivity.
Qed.

Lemma add_one_qubit_gates_shape (P : py_random) names n k g acc :
  names <> [] -> (0 < n)%Z \/ k = 0 ->
  exists l g', add_one_qubit_gates P names n k g acc = PyOk (acc ++ l, g') /\
    length l = k /\ Forall (one_qubit_entry P names n) l.
Proof.
  intros Hne Hk. revert g acc. induction k as [|k IH]; intros g acc.
  - exists [], g. rewrite app_nil_r. auto.
  - destruct Hk as [Hn|Hk]; [|discriminate].
    cbn [add_one_qubit_gates]. rewrite py_choice_nonempty by exact Hne.
    unfold py_randrange. replace (0 <? n)%Z with true by (symmetry; apply Z.ltb_lt; exact Hn).
    cbv beta iota.
    destruct (randbelow P _ (Z.to_nat n)) as [q g2] eqn:E2.
    cbv beta iota.
    match goal with |- context [add_one_qubit_gates _ _ _ _ _ (acc ++ [?x])] => set (gi := x) end.
    destruct (IH (or_introl Hn) g2 (acc ++ [gi])) as [l [g' [Hl [Hlen Hall]]]].
    exists (gi :: l), g'.
    rewrite Hl, <- app_assoc. split; [reflexivity|]. split; [simpl; lia|].
    constructor; [|exact Hall].
    eexists g, _. unfold gi. rewrite E2. reflexivity.
Qed.

Lemma add_one_qubit_gates_raise (P : py_random) names n k g acc :
  names <> [] -> (n <= 0)%Z -> 1 <= k ->
  add_one_qubit_gates P names n k g acc = PyRaise PyValueError.
Proof.
  intros Hne Hn Hk. destruct k as [|k]; [lia|].
  cbn [add_one_qubit_gates]. rewrite py_choice_nonempty by exact Hne.
  unfold py_randrange. replace (0 <? n)%Z with false by (symmetry; apply Z.ltb_ge; exact Hn).
  cbv beta iota. reflexivity.
Qed.

Lemma add_two_qubit_gates_shape (P : py_random) n k g acc :
  exists l g', add_two_qubit_gates P n k g acc = PyOk (acc ++ l, g') /\
    length l = k /\ Forall (two_qubit_entry P n) l.
Proof.
  revert g acc. induction k as [|k IH]; intros g acc.
  - exists [], g. rewrite app_nil_r. auto.
  - cbn [add_two_qubit_gates]. rewrite py_choice_nonempty by discriminate.
    destruct (sample2 P _ n) as [[q1 q2] g2] eqn:E2.
    cbv beta iota.
    match goal with |- context [add_two_qubit_gates _ _ _ _ (acc ++ [?x])] => set (gi := x) end.
    destruct (IH g2 (acc ++ [gi])) as [l [g' [Hl [Hlen Hall]]]].
    exists (gi :: l), g'.
    rewrite Hl, <- app_assoc. split; [reflexivity|]. split; [simpl; lia|].
    constructor; [|exact Hall].
    eexists g, _. unfold gi. rewrite E2. reflexivity.
Qed.

End QasmGeneratorProps.

Section QasmGeneratorRuns.

Local Open Scope nat_scope.

Lemma gates_to_apply_shape (P : py_random) n s t2 t seed g :
  (0 < n)%Z \/ ((s <= 0)%Z /\ (t <= 0)%Z) ->
  exists l1 l2 l3 g3,
    gates_to_apply P n s t2 t seed g = PyOk (py_shuffle P no_gate (l1 ++ l2 ++ l3) g3) /\
    length l1 = Z.to_nat s /\
    length l2 = (if (2 <=? n)%Z then Z.to_nat t2 else 0) /\
    length l3 = Z.to_nat t /\
    Forall (one_qubit_entry P SINGLE_QUBIT_CLIFFORDS n) l1 /\
    Forall (two_qubit_entry P (Z.to_nat n)) l2 /\
    Forall (one_qubit_entry P T_TYPE_GATES n) l3.
Proof.
  intros Hn. unfold gates_to_apply. cbv zeta.
  set (g0 := match seed with Some s0 => py_seed P s0 | None => g end).
  destruct (add_one_qubit_gates_shape P SINGLE_QUBIT_CLIFFORDS n (Z.to_nat s) g0 []
              ltac:(discriminate) ltac:(lia)) as [l1 [g1 [E1 [Hl1 F1]]]].
  rewrite E1. cbv beta iota.
  destruct (2 <=? n)%Z eqn:E2n.
  - destruct (add_two_qubit_gates_shape P (Z.to_nat n) (Z.to_nat t2) g1 ([] ++ l1))
      as [l2 [g2 [E2 [Hl2 F2]]]].
    rewrite E2. cbv beta iota.
    destruct (add_one_qubit_gates_shape P T_TYPE_GATES n (Z.to_nat t) g2 (([] ++ l1) ++ l2)
                ltac:(discriminate) ltac:(lia)) as [l3 [g3 [E3 [Hl3 F3]]]].
    rewrite E3. cbv beta iota.
    exists l1, l2, l3, g3. rewrite !app_nil_l, <- app_assoc. auto 7.
  - cbv beta iota.
    destruct (add_one_qubit_gates_shape P T_TYPE_GATES n (Z.to_nat t) g1 ([] ++ l1)
                ltac:(discriminate) ltac:(lia)) as [l3 [g3 [E3 [Hl3 F3]]]].
    rewrite E3. cbv beta iota.
    exists l1, [], l3, g3. rewrite !app_nil_l. auto 7.
Qed.

Lemma gates_to_apply_raise (P : py_random) n s t2 t seed g :
  (n <= 0)%Z -> (1 <= s)%Z \/ (1 <= t)%Z ->
  gates_to_apply P n s t2 t seed g = PyRaise PyValueError.
Proof.
  intros Hn Hst. unfold gates_to_apply. cbv zeta.
  set (g0 := match seed with Some s0 => py_seed P s0 | None => g end).
  destruct (Z_le_gt_dec 1 s) as [Hs|Hs].
  - rewrite add_one_qubit_gates_raise by (try discriminate; lia). reflexivity.
  - replace (Z.to_nat s) with 0 by lia. cbn [add_one_qubit_gates].
    replace (2 <=? n)%Z with false by (symmetry; apply Z.leb_gt; lia).
    rewrite add_one_qubit_gates_raise by (try discriminate; lia). reflexivity.
Qed.

(** what a successful run of the generator is made of *)
Lemma generate_qasm_ok_inv (P : py_random) n s t2 t seed g text g' :
  generate_random_circuit_qasm P n s t2 t seed g = PyOk (text, g') ->
  exists l1 l2 l3 g3,
    text = String.concat nl (qasm_header n ++
                             map gate_line (fst (py_shuffle P no_gate (l1 ++ l2 ++ l3) g3))) /\
    ((0 < n)%Z \/ ((s <= 0)%Z /\ (t <= 0)%Z)) /\
    length l1 = Z.to_nat s /\
    length l2 = (if (2 <=? n)%Z then Z.to_nat t2 else 0) /\
    length l3 = Z.to_nat t /\
    Forall (one_qubit_entry P SINGLE_QUBIT_CLIFFORDS n) l1 /\
    Forall (two_qubit_entry P (Z.to_nat n)) l2 /\
    Forall (one_qubit_entry P T_TYPE_GATES n) l3.
Proof.
  intros Hok.
  assert (Hn : (0 < n)%Z \/ ((s <= 0)%Z /\ (t <= 0)%Z)).
  { destruct (Z_lt_le_dec 0 n) as [H|H]; [now left|].
    destruct (Z_le_gt_dec 1 s) as [Hs|Hs].
    - unfold generate_random_circuit_qasm in Hok.
      rewrite gates_to_apply_raise in Hok by lia. discriminate.
    - destruct (Z_le_gt_dec 1 t) as [Ht|Ht]; [|right; lia].
      unfold generate_random_circuit_qasm in Hok.
      rewrite gates_to_apply_raise in Hok by lia. discriminate. }
  destruct (gates_to_apply_shape P n s t2 t seed g Hn)
    as [l1 [l2 [l3 [g3 [E [H1 [H2 [H3 [F1 [F2 F3]]]]]]]]]].
  unfold generate_random_circuit_qasm in Hok. rewrite E in Hok.
  destruct (py_shuffle P no_gate (l1 ++ l2 ++ l3) g3) as [gates g4] eqn:Es.
  injection Hok as <- <-.
  exists l1, l2, l3, g3. rewrite Es. simpl. auto 8.
Qed.

Lemma in_names_In (names : list string) (x : string) :
  in_names names x = true <-> In x names.
Proof.
  unfold in_names. rewrite existsb_exists. split.
  - intros [y [Hy Heq]]. apply String.eqb_eq in Heq. subst. exact Hy.
  - intros Hx. exists x. split; [exact Hx | apply String.eqb_refl].
Qed.

Lemma count_names_app (names : list string) (l1 l2 : list gate_info) :
  count_names names (l1 ++ l2) = count_names names l1 + count_names names l2.
Proof. unfold count_names. rewrite filter_app, length_app. reflexivity. Qed.

Lemma count_names_perm (names : list string) (l l' : list gate_info) :
  Permutation l l' -> count_names names l = count_names names l'.
Proof.
  unfold count_names. induction 1 as [|x l l' _ IH|x y l|l l' l'' _ IH1 _ IH2]; simpl.
  - reflexivity.
  - destruct (in_names names (fst x)); simpl; lia.
  - destruct (in_names names (fst x)), (in_names names (fst y)); simpl; lia.
  - lia.
Qed.

Lemma count_names_all (names src : list string) (l : list gate_info) :
  Forall (fun gi => In (fst gi) src) l -> (forall x, In x src -> In x names) ->
  count_names names l = length l.
Proof.
  intros F Hsub. unfold count_names. induction F as [|gi l Hgi _ IH]; [reflexivity|].
  simpl. replace (in_names names (fst gi)) with true
    by (symmetry; apply in_names_In, Hsub, Hgi).
  simpl. rewrite IH. reflexivity.
Qed.

Lemma count_names_none (names src : list string) (l : list gate_info) :
  Forall (fun gi => In (fst gi) src) l -> (forall x, In x src -> ~ In x names) ->
  count_names names l = 0.
Proof.
  intros F Hdis. unfold count_names. induction F as [|gi l Hgi _ IH]; [reflexivity|].
  simpl. destruct (in_names names (fst gi)) eqn:Ei.
  - apply in_names_In in Ei. exfalso. exact (Hdis _ Hgi Ei).
  - exact IH.
Qed.

Lemma one_qubit_entry_name (P : py_random) names n gi :
  randbelow_ok P -> names <> [] -> one_qubit_entry P names n gi -> In (fst gi) names.
Proof.
  intros Hr Hne [g1 [g2 ->]]. cbn [fst]. apply nth_In, Hr.
  destruct names; [congruence | simpl; lia].
Qed.

Lemma one_qubit_entry_target (P : py_random) names n gi :
  randbelow_ok P -> (0 < n)%Z -> one_qubit_entry P names n gi ->
  exists q, snd gi = [q] /\ q < Z.to_nat n.
Proof.
  intros Hr Hn [g1 [g2 ->]]. simpl. eexists. split; [reflexivity|]. apply Hr. lia.
Qed.

Lemma two_qubit_entry_name (P : py_random) n gi :
  randbelow_ok P -> two_qubit_entry P n gi -> In (fst gi) TWO_QUBIT_CLIFFORDS.
Proof.
  intros Hr [g1 [g2 ->]]. cbn [fst]. apply nth_In, Hr. simpl. lia.
Qed.

Lemma two_qubit_entry_targets (P : py_random) n gi :
  sample2_ok P -> 2 <= n -> two_qubit_entry P n gi ->
  exists q1 q2, snd gi = [q1; q2] /\ q1 < n /\ q2 < n /\ q1 <> q2.
Proof.
  intros Hs Hn [g1 [g2 ->]]. simpl. do 2 eexists. split; [reflexivity|]. apply Hs, Hn.
Qed.

Lemma gate_families_disjoint :
  (forall x, In x SINGLE_QUBIT_CLIFFORDS -> ~ In x TWO_QUBIT_CLIFFORDS) /\
  (forall x, In x SINGLE_QUBIT_CLIFFORDS -> ~ In x T_TYPE_GATES) /\
  (forall x, In x TWO_QUBIT_CLIFFORDS -> ~ In x SINGLE_QUBIT_CLIFFORDS) /\
  (forall x, In x TWO_QUBIT_CLIFFORDS -> ~ In x T_TYPE_GATES) /\
  (forall x, In x T_TYPE_GATES -> ~ In x SINGLE_QUBIT_CLIFFORDS) /\
  (forall x, In x T_TYPE_GATES -> ~ In x TWO_QUBIT_CLIFFORDS).
Proof.
  repeat split; intros x H1 H2; apply in_names_In in H2; revert H2;
    simpl in H1; repeat (destruct H1 as [<-|H1]; [vm_compute; discriminate|]); contradiction.
Qed.

End QasmGeneratorRuns.

Section QasmText.

Local Open Scope nat_scope.

Lemma count_char_append (c : Ascii.ascii) (s1 s2 : string) :
  count_char c (String.append s1 s2) = count_char c s1 + count_char c s2.
Proof. induction s1 as [|a s1 IH]; simpl; [reflexivity|]. rewrite IH. lia. Qed.

Lemma count_char_concat (c : Ascii.ascii) (sep : string) (l : list string) :
  count_char c (String.concat sep l) =
  fold_right plus 0 (map (count_char c) l) + (length l - 1) * count_char c sep.
Proof.
  induction l as [|a l IH]; [reflexivity|].
  destruct l as [|b l].
  - simpl. lia.
  - change (String.concat sep (a :: b :: l))
      with (String.append a (String.append sep (String.concat sep (b :: l)))).
    rewrite !count_char_append, IH. simpl. lia.
Qed.

Lemma count_char_concat_lines (c : Ascii.ascii) (sep : string) (l : list string) :
  Forall (fun x => count_char c x = 0) l ->
  count_char c (String.concat sep l) = (length l - 1) * count_char c sep.
Proof.
  intros F. rewrite count_char_concat.
  replace (fold_right plus 0 (map (count_char c) l)) with 0; [reflexivity|].
  induction F as [|x l Hx _ IH]; simpl; lia.
Qed.

Lemma uint_to_string_no_nl (u : Decimal.uint) : count_char nl_char (uint_to_string u) = 0.
Proof. induction u; simpl; assumption || reflexivity. Qed.

Lemma nat_str_no_nl (k : nat) : count_char nl_char (nat_str k) = 0.
Proof. apply uint_to_string_no_nl. Qed.

Lemma qasm_header_no_nl (n : Z) : Forall (fun x => count_char nl_char x = 0) (qasm_header n).
Proof.
  unfold qasm_header. repeat constructor.
  rewrite !count_char_append. unfold z_str.
  destruct (n <? 0)%Z; rewrite ?count_char_append, nat_str_no_nl; reflexivity.
Qed.

Lemma gate_names_no_nl (x : string) :
  In x (SINGLE_QUBIT_CLIFFORDS ++ TWO_QUBIT_CLIFFORDS ++ T_TYPE_GATES) \/ x = String.EmptyString ->
  count_char nl_char x = 0.
Proof.
  intros [Hx| ->]; [|reflexivity].
  simpl in Hx. repeat (destruct Hx as [<-|Hx]; [reflexivity|]). contradiction.
Qed.

Lemma gate_line_no_nl (gi : gate_info) :
  count_char nl_char (fst gi) = 0 -> count_char nl_char (gate_line gi) = 0.
Proof.
  destruct gi as [name qs]. cbn [fst]. intros Hn. unfold gate_line.
  rewrite !count_char_append, Hn, count_char_concat_lines.
  - simpl. lia.
  - apply Forall_forall. intros x Hx. apply in_map_iff in Hx as [i [<- _]].
    rewrite !count_char_append, nat_str_no_nl. reflexivity.
Qed.

Lemma list_set_incl {A} (l : list A) (i : nat) (v y : A) :
  In y (list_set l i v) -> In y l \/ y = v.
Proof.
  revert i. induction l as [|x l IH]; intros [|i]; simpl; try tauto.
  - intros [<-|H]; tauto.
  - intros [<-|H]; [tauto|]. destruct (IH i H); tauto.
Qed.

Lemma shuffle_loop_incl (P : py_random) {A} (d : A) (i : nat) (x : list A) (g : rng P) (y : A) :
  In y (fst (shuffle_loop P d i x g)) -> In y x \/ y = d.
Proof.
  revert x g. induction i as [|i IH]; intros x g; [simpl; tauto|].
  cbn [shuffle_loop]. destruct (randbelow P g (Datatypes.S (Datatypes.S i))) as [j g'].
  intros Hy. destruct (IH _ _ Hy) as [Hs|Hd]; [|tauto].
  unfold py_swap in Hs.
  destruct (list_set_incl _ _ _ _ Hs) as [Hs1| ->].
  - destruct (list_set_incl _ _ _ _ Hs1) as [H| ->]; [tauto|].
    destruct (nth_in_or_default j x d); tauto.
  - destruct (nth_in_or_default (Datatypes.S i) x d); tauto.
Qed.

Lemma one_qubit_entry_no_nl (P : py_random) names n gi :
  (forall x, In x names -> count_char nl_char x = 0) ->
  one_qubit_entry P names n gi -> count_char nl_char (fst gi) = 0.
Proof.
  intros Hn [g1 [g2 ->]]. cbn [fst].
  destruct (nth_in_or_default (fst (randbelow P g1 (length names))) names String.EmptyString)
    as [H| ->]; [apply Hn, H | reflexivity].
Qed.

Lemma two_qubit_entry_no_nl (P : py_random) n gi :
  two_qubit_entry P n gi -> count_char nl_char (fst gi) = 0.
Proof.
  intros [g1 [g2 ->]]. cbn [fst]. apply gate_names_no_nl.
  destruct (nth_in_or_default (fst (randbelow P g1 (length TWO_QUBIT_CLIFFORDS)))
              TWO_QUBIT_CLIFFORDS String.EmptyString) as [H| ->]; [|tauto].
  left. apply in_or_app. right. apply in_or_app. left. exact H.
Qed.

End QasmText.

(** ** Properties of the generator and of the Pauli-string check *)

(** [generate_random_circuit_qasm] raises [ValueError] exactly when there
    are no qubits to draw targets from ([num_qubits <= 0]) while a single-qubit
    Clifford or a T-type gate is requested; in every other case it returns
    the QASM text, whatever the generator does.  Two-qubit gates never make
    it fail: with fewer than two qubits their loop is skipped. *)
Theorem generate_qasm_value_error (P : py_random) n s t2 t seed g :
  match generate_random_circuit_qasm P n s t2 t seed g with
  | PyRaise e => e = PyValueError /\ (n <= 0)%Z /\ ((1 <= s)%Z \/ (1 <= t)%Z)
  | PyOk _ => ~ ((n <= 0)%Z /\ ((1 <= s)%Z \/ (1 <= t)%Z))
  end.
Proof.
  destruct (Z_lt_le_dec 0 n) as [Hn|Hn].
  - destruct (gates_to_apply_shape P n s t2 t seed g (or_introl Hn)) as [l1 [l2 [l3 [g3 [E _]]]]].
    unfold generate_random_circuit_qasm. rewrite E.
    destruct (py_shuffle P no_gate (l1 ++ l2 ++ l3) g3). lia.
  - destruct (Z_le_gt_dec 1 s) as [Hs|Hs]; [|destruct (Z_le_gt_dec 1 t) as [Ht|Ht]].
    + unfold generate_random_circuit_qasm. rewrite gates_to_apply_raise by lia. simpl. split; [reflexivity | lia].
    + unfold generate_random_circuit_qasm. rewrite gates_to_apply_raise by lia. simpl. split; [reflexivity | lia].
    + destruct (gates_to_apply_shape P n s t2 t seed g ltac:(lia)) as [l1 [l2 [l3 [g3 [E _]]]]].
      unfold generate_random_circuit_qasm. rewrite E.
      destruct (py_shuffle P no_gate (l1 ++ l2 ++ l3) g3). lia.
Qed.

(** On success the text is the three header lines followed by one line per
    entry of the shuffled gate list, and that list holds exactly
    [num_single_clifford] single-qubit Cliffords, [num_two_clifford]
    two-qubit Cliffords when [num_qubits >= 2] (none otherwise) and [num_t]
    T-type gates, negative counts counting as zero, and no other gate. *)
Theorem generate_qasm_gate_counts (P : py_random) n s t2 t seed g text g' :
  randbelow_ok P ->
  generate_random_circuit_qasm P n s t2 t seed g = PyOk (text, g') ->
  exists gates,
    text = String.concat nl (qasm_header n ++ map gate_line gates) /\
    length gates = (Z.to_nat s + (if (2 <=? n)%Z then Z.to_nat t2 else 0) + Z.to_nat t)%nat /\
    count_names SINGLE_QUBIT_CLIFFORDS gates = Z.to_nat s /\
    count_names TWO_QUBIT_CLIFFORDS gates = (if (2 <=? n)%Z then Z.to_nat t2 else 0%nat) /\
    count_names T_TYPE_GATES gates = Z.to_nat t.
Proof.
  intros Hr Hok.
  destruct (generate_qasm_ok_inv P n s t2 t seed g text g' Hok)
    as [l1 [l2 [l3 [g3 [Ht [_ [H1 [H2 [H3 [F1 [F2 F3]]]]]]]]]]].
  exists (fst (py_shuffle P no_gate (l1 ++ l2 ++ l3) g3)). split; [exact Ht|].
  split; [rewrite py_shuffle_length, !length_app, H1, H2, H3; lia|].
  assert (Hp := py_shuffle_perm P no_gate (l1 ++ l2 ++ l3) g3 Hr).
  assert (G1 : Forall (fun gi => In (fst gi) SINGLE_QUBIT_CLIFFORDS) l1).
  { eapply Forall_impl; [|exact F1]. intros gi. apply one_qubit_entry_name; [exact Hr|discriminate]. }
  assert (G2 : Forall (fun gi => In (fst gi) TWO_QUBIT_CLIFFORDS) l2).
  { eapply Forall_impl; [|exact F2]. intros gi. apply two_qubit_entry_name; exact Hr. }
  assert (G3 : Forall (fun gi => In (fst gi) T_TYPE_GATES) l3).
  { eapply Forall_impl; [|exact F3]. intros gi. apply one_qubit_entry_name; [exact Hr|discriminate]. }
  destruct gate_families_disjoint as [D12 [D13 [D21 [D23 [D31 D32]]]]].
  rewrite <- !(count_names_perm _ _ _ Hp), !count_names_app.
  rewrite (count_names_all _ _ l1 G1), (count_names_none _ _ l2 G2),
    (count_names_none _ _ l3 G3) by auto.
  rewrite (count_names_none _ _ l1 G1), (count_names_all _ _ l2 G2),
    (count_names_none _ _ l3 G3) by auto.
  rewrite (count_names_none _ _ l1 G1), (count_names_none _ _ l2 G2),
    (count_names_all _ _ l3 G3) by auto.
  lia.
Qed.

(** On success every gate line of the text is well formed: either a
    single-qubit Clifford or a T-type gate on one qubit index below
    [num_qubits], or a two-qubit Clifford on two distinct qubit indices
    below [num_qubits]. *)
Theorem generate_qasm_well_formed (P : py_random) n s t2 t seed g text g' :
  randbelow_ok P -> sample2_ok P ->
  generate_random_circuit_qasm P n s t2 t seed g = PyOk (text, g') ->
  exists gates,
    text = String.concat nl (qasm_header n ++ map gate_line gates) /\
    Forall (fun gi =>
      (In (fst gi) (SINGLE_QUBIT_CLIFFORDS ++ T_TYPE_GATES) /\
         exists q, snd gi = [q] /\ (q < Z.to_nat n)%nat) \/
      (In (fst gi) TWO_QUBIT_CLIFFORDS /\
         exists q1 q2, snd gi = [q1; q2] /\ (q1 < Z.to_nat n)%nat /\ (q2 < Z.to_nat n)%nat /\
                       q1 <> q2)) gates.
Proof.
  intros Hr Hs Hok.
  destruct (generate_qasm_ok_inv P n s t2 t seed g text g' Hok)
    as [l1 [l2 [l3 [g3 [Ht [Hn [H1 [H2 [H3 [F1 [F2 F3]]]]]]]]]]].
  exists (fst (py_shuffle P no_gate (l1 ++ l2 ++ l3) g3)). split; [exact Ht|].
  apply Forall_forall. intros gi Hgi.
  apply (Permutation_in _ (Permutation_sym (py_shuffle_perm P no_gate _ g3 Hr))) in Hgi.
  apply in_app_or in Hgi as [Hgi|Hgi]; [|apply in_app_or in Hgi as [Hgi|Hgi]].
  - left. rewrite Forall_forall in F1. specialize (F1 gi Hgi).
    assert (Hpos : (0 < n)%Z).
    { destruct Hn as [Hn|[Hs0 _]]; [exact Hn|].
      destruct l1; [contradiction | simpl in H1; lia]. }
    split.
    + apply in_or_app. left. apply (one_qubit_entry_name P _ n); [exact Hr|discriminate|exact F1].
    + exact (one_qubit_entry_target P _ n gi Hr Hpos F1).
  - right. rewrite Forall_forall in F2. specialize (F2 gi Hgi).
    destruct (2 <=? n)%Z eqn:E2.
    + split; [exact (two_qubit_entry_name P _ gi Hr F2)|].
      apply (two_qubit_entry_targets P _ gi Hs); [apply Z.leb_le in E2; lia | exact F2].
    + destruct l2; [contradiction | simpl in H2; lia].
  - left. rewrite Forall_forall in F3. specialize (F3 gi Hgi).
    assert (Hpos : (0 < n)%Z).
    { destruct Hn as [Hn|[_ Ht0]]; [exact Hn|].
      destruct l3; [contradiction | simpl in H3; lia]. }
    split.
    + apply in_or_app. right. apply (one_qubit_entry_name P _ n); [exact Hr|discriminate|exact F3].
    + exact (one_qubit_entry_target P _ n gi Hr Hpos F3).
Qed.

(** On success the text holds exactly [2 + G] newline characters, i.e.
    [3 + G] lines, where [G] is the number of gates asked for (two-qubit
    gates counting only when [num_qubits >= 2]); neither the gate names nor
    the rendered qubit indices contain a newline.  This holds for any
    generator. *)
Theorem generate_qasm_line_count (P : py_random) n s t2 t seed g text g' :
  generate_random_circuit_qasm P n s t2 t seed g = PyOk (text, g') ->
  count_char nl_char text =
  (2 + Z.to_nat s + (if (2 <=? n)%Z then Z.to_nat t2 else 0) + Z.to_nat t)%nat.
Proof.
  intros Hok.
  destruct (generate_qasm_ok_inv P n s t2 t seed g text g' Hok)
    as [l1 [l2 [l3 [g3 [-> [_ [H1 [H2 [H3 [F1 [F2 F3]]]]]]]]]]].
  rewrite count_char_concat_lines.
  - rewrite length_app, length_map, py_shuffle_length, !length_app, H1, H2, H3.
    simpl. lia.
  - apply Forall_app. split; [apply qasm_header_no_nl|].
    apply Forall_forall. intros x Hx. apply in_map_iff in Hx as [gi [<- Hgi]].
    apply gate_line_no_nl.
    destruct (shuffle_loop_incl _ _ _ _ _ _ Hgi) as [Hin| ->]; [|reflexivity].
    assert (Hfam : forall x, In x SINGLE_QUBIT_CLIFFORDS \/ In x T_TYPE_GATES ->
                             count_char nl_char x = 0%nat).
    { intros y Hy. apply gate_names_no_nl. left.
      destruct Hy as [Hy|Hy]; apply in_or_app; [left; exact Hy|right; apply in_or_app; right; exact Hy]. }
    apply in_app_or in Hin as [Hin|Hin]; [|apply in_app_or in Hin as [Hin|Hin]].
    + rewrite Forall_forall in F1. apply (one_qubit_entry_no_nl P SINGLE_QUBIT_CLIFFORDS n); [|exact (F1 _ Hin)].
      intros y Hy. apply Hfam. left. exact Hy.
    + rewrite Forall_forall in F2. exact (two_qubit_entry_no_nl P _ _ (F2 _ Hin)).
    + rewrite Forall_forall in F3. apply (one_qubit_entry_no_nl P T_TYPE_GATES n); [|exact (F3 _ Hin)].
      intros y Hy. apply Hfam. right. exact Hy.
Qed.

Section ProductProps.

Local Open Scope nat_scope.

Lemma product_repeat_S {A} (pool : list A) (r : nat) :
  product_repeat pool (Datatypes.S r) = product_step (product_repeat pool r) pool.
Proof.
  unfold product_repeat. cbn [repeat]. rewrite repeat_cons, fold_left_app. reflexivity.
Qed.

Lemma flat_map_const_length {A B} (f : A -> list B) (m : nat) (l : list A) :
  (forall x, length (f x) = m) -> length (flat_map f l) = length l * m.
Proof.
  intros Hf. induction l as [|x l IH]; [reflexivity|].
  simpl. rewrite length_app, Hf, IH. reflexivity.
Qed.

Lemma product_step_length {A} (res : list (list A)) (pool : list A) :
  length (product_step res pool) = length res * length pool.
Proof.
  apply flat_map_const_length. intros x. apply length_map.
Qed.

Lemma product_repeat_length {A} (pool : list A) (r : nat) :
  length (product_repeat pool r) = length pool ^ r.
Proof.
  induction r as [|r IH]; [reflexivity|].
  rewrite product_repeat_S, product_step_length, IH, Nat.pow_succ_r'. lia.
Qed.

Lemma product_repeat_In {A} (pool : list A) (r : nat) (ls : list A) :
  In ls (product_repeat pool r) <-> length ls = r /\ Forall (fun x => In x pool) ls.
Proof.
  revert ls. induction r as [|r IH]; intros ls.
  - simpl. split.
    + intros [<-|[]]. auto.
    + intros [Hl _]. destruct ls; [auto | discriminate].
  - rewrite product_repeat_S. unfold product_step. rewrite in_flat_map. split.
    + intros [x [Hx Hin]]. apply in_map_iff in Hin as [y [<- Hy]].
      apply IH in Hx as [Hl F]. rewrite length_app, Hl. simpl.
      split; [lia|]. apply Forall_app. auto.
    + intros [Hl F]. destruct (exists_last (l := ls)) as [x [y ->]].
      { intros ->. discriminate. }
      rewrite length_app in Hl. simpl in Hl. apply Forall_app in F as [Fx Fy].
      inversion Fy as [|? ? Hy _]; subst.
      exists x. split; [apply IH; split; [lia | exact Fx]|].
      apply in_map_iff. exists y. auto.
Qed.

Lemma nth_flat_map_const {A B} (f : A -> list B) (m : nat) (l : list A) (k : nat) (da : A) (db : B) :
  (forall x, length (f x) = m) -> k < length l * m ->
  nth k (flat_map f l) db = nth (k mod m) (f (nth (k / m) l da)) db.
Proof.
  intros Hf. revert k. induction l as [|a l IH]; intros k Hk; [simpl in Hk; lia|].
  assert (Hm : m <> 0) by (intros ->; simpl in Hk; lia).
  simpl. destruct (Nat.lt_ge_cases k m) as [Hlt|Hge].
  - rewrite app_nth1 by (rewrite Hf; exact Hlt).
    rewrite Nat.mod_small, Nat.div_small by exact Hlt. reflexivity.
  - rewrite app_nth2 by (rewrite Hf; exact Hge). rewrite Hf.
    replace k with ((k - m) + 1 * m) at 2 3 by lia.
    rewrite Nat.div_add, Nat.Div0.mod_add by exact Hm.
    rewrite Nat.add_1_r. simpl in Hk |- *. apply IH. lia.
Qed.

Lemma product_repeat_nth {A} (pool : list A) (r k : nat) (d : A) :
  k < length pool ^ r ->
  nth k (product_repeat pool r) [] = map (fun i => nth i pool d) (digits (length pool) r k).
Proof.
  revert k. induction r as [|r IH]; intros k Hk.
  - simpl in Hk. replace k with 0 by lia. reflexivity.
  - assert (Hm : length pool <> 0) by (intros E; rewrite E in Hk; simpl in Hk; lia).
    rewrite product_repeat_S. unfold product_step.
    rewrite (nth_flat_map_const _ (length pool) _ _ [] []).
    + assert (Ej : forall (x : list A) j, j < length pool ->
                 nth j (map (fun y => x ++ [y]) pool) [] = x ++ [nth j pool d]).
      { intros x j Hj. rewrite (nth_indep _ [] (x ++ [d])) by (rewrite length_map; exact Hj).
        apply (map_nth (fun y => x ++ [y])). }
      rewrite Ej by (apply Nat.mod_upper_bound, Hm). rewrite IH.
      * simpl. rewrite map_app. reflexivity.
      * apply Nat.Div0.div_lt_upper_bound. rewrite Nat.pow_succ_r' in Hk. lia.
    + intros x. apply length_map.
    + rewrite product_repeat_length, Nat.pow_succ_r' in *. lia.
Qed.

Lemma NoDup_map_inj_on {A B} (f : A -> B) (l : list A) :
  (forall x y, In x l -> In y l -> f x = f y -> x = y) -> NoDup l -> NoDup (map f l).
Proof.
  intros Hinj Hl. induction Hl as [|x l Hx Hl IH]; simpl; constructor.
  - intros Hin. apply in_map_iff in Hin as [y [Hxy Hy]].
    apply Hx. replace x with y; [exact Hy|]. apply Hinj; simpl; auto.
  - apply IH. intros a b Ha Hb. apply Hinj; simpl; auto.
Qed.

Lemma product_repeat_NoDup {A} (pool : list A) (r : nat) :
  NoDup pool -> NoDup (product_repeat pool r).
Proof.
  intros Hp. induction r as [|r IH].
  - repeat constructor. simpl. tauto.
  - rewrite product_repeat_S. unfold product_step.
    induction IH as [|x res Hx Hres IHres]; [constructor|].
    simpl. apply NoDup_app; [| exact IHres |].
    + apply NoDup_map_inj_on; [|exact Hp].
      intros a b _ _ Hab. apply app_inj_tail in Hab. apply Hab.
    + intros z Hz Hz'. apply in_map_iff in Hz as [y [<- _]].
      apply in_flat_map in Hz' as [x' [Hx' Hin]]. apply in_map_iff in Hin as [y' [Heq _]].
      apply app_inj_tail in Heq as [-> _]. exact (Hx Hx').
Qed.

Lemma concat_empty_cons (a : string) (l : list string) :
  String.concat String.EmptyString (a :: l) = String.append a (String.concat String.EmptyString l).
Proof.
  destruct l as [|b l].
  - simpl. induction a as [|c a IH]; simpl; [reflexivity | rewrite <- IH; reflexivity].
  - reflexivity.
Qed.

Lemma concat_single_chars_inj (l1 l2 : list string) :
  Forall (fun s => String.length s = 1) l1 -> Forall (fun s => String.length s = 1) l2 ->
  String.concat String.EmptyString l1 = String.concat String.EmptyString l2 -> l1 = l2.
Proof.
  intros F1. revert l2. induction F1 as [|a l1 Ha _ IH]; intros l2 F2 E.
  - destruct F2 as [|b l2 Hb _]; [reflexivity|].
    rewrite concat_empty_cons in E.
    destruct b as [|c b]; [discriminate | discriminate].
  - destruct F2 as [|b l2 Hb F2].
    + rewrite concat_empty_cons in E.
      destruct a as [|c a]; [discriminate | discriminate].
    + rewrite !concat_empty_cons in E.
      destruct a as [|c [|c' a]]; try discriminate.
      destruct b as [|e [|e' b]]; try discriminate.
      simpl in E. injection E as -> E. f_equal. apply IH; assumption.
Qed.

End ProductProps.

Section PauliCheck.

Local Open Scope nat_scope.

Lemma check_paulis_ok {NcPauli QkPauli : Type}
  (nc_from_str : string -> py_result NcPauli) (qk_pauli : string -> py_result QkPauli)
  (nc_exp : NcPauli -> py_result R) (qk_exp : QkPauli -> py_result R) (tolerance : R)
  (ps : list (list string)) :
  check_paulis nc_from_str qk_pauli nc_exp qk_exp tolerance ps = PyOk tt <->
  forall s, In s (map (String.concat String.EmptyString) ps) ->
    exists p q a b, nc_from_str s = PyOk p /\ qk_pauli s = PyOk q /\
                    nc_exp p = PyOk a /\ qk_exp q = PyOk b /\ (Rabs (a - b) < tolerance)%R.
Proof.
  induction ps as [|tuple ps IH]; simpl.
  - split; [intros _ s []|reflexivity].
  - destruct (nc_from_str (String.concat String.EmptyString tuple)) as [p|e] eqn:E1.
    2:{ split; [discriminate|]. intros H. destruct (H _ (or_introl eq_refl)) as [? [? [? [? [E _]]]]].
        congruence. }
    destruct (qk_pauli (String.concat String.EmptyString tuple)) as [q|e] eqn:E2.
    2:{ split; [discriminate|]. intros H.
        destruct (H _ (or_introl eq_refl)) as [? [? [? [? [_ [E _]]]]]]. congruence. }
    destruct (nc_exp p) as [a|e] eqn:E3.
    2:{ split; [discriminate|]. intros H.
        destruct (H _ (or_introl eq_refl)) as [p' [? [? [? [Ep [_ [E _]]]]]]].
        rewrite E1 in Ep. injection Ep as <-. congruence. }
    destruct (qk_exp q) as [b|e] eqn:E4.
    2:{ split; [discriminate|]. intros H.
        destruct (H _ (or_introl eq_refl)) as [? [q' [? [? [_ [Eq [_ [E _]]]]]]]].
        rewrite E2 in Eq. injection Eq as <-. congruence. }
    destruct (Rlt_dec (Rabs (a - b)) tolerance) as [Hlt|Hge].
    + rewrite IH. split.
      * intros H s [<-|Hs]; [|exact (H s Hs)]. exists p, q, a, b. auto.
      * intros H s Hs. apply H. right. exact Hs.
    + split; [discriminate|]. intros H.
      destruct (H _ (or_introl eq_refl)) as [p' [q' [a' [b' [Ep [Eq [Ea [Eb Hab]]]]]]]].
      rewrite E1 in Ep. injection Ep as <-. rewrite E2 in Eq. injection Eq as <-.
      rewrite E3 in Ea. injection Ea as <-. rewrite E4 in Eb. injection Eb as <-.
      contradiction.
Qed.

Lemma paulis_NoDup : NoDup paulis.
Proof.
  repeat constructor; simpl; intros H; repeat (destruct H as [H|H]; [discriminate H|]); exact H.
Qed.

Lemma paulis_single_chars : Forall (fun s => String.length s = 1) paulis.
Proof. repeat constructor. Qed.

End PauliCheck.

Section SampleCounts.

Local Open Scope nat_scope.

Lemma add_count_total (k : list bool) (counts : list (list bool * nat)) :
  fold_right Nat.add 0 (map snd (add_count k counts)) =
  Datatypes.S (fold_right Nat.add 0 (map snd counts)).
Proof.
  induction counts as [|[k' c] rest IH]; [reflexivity|].
  simpl. destruct (list_eq_dec Bool.bool_dec k k'); simpl; [reflexivity|]. rewrite IH. lia.
Qed.

Lemma add_count_keys (k : list bool) (counts : list (list bool * nat)) (k' : list bool) :
  In k' (map fst (add_count k counts)) -> k' = k \/ In k' (map fst counts).
Proof.
  induction counts as [|[k0 c] rest IH]; simpl.
  - intros [<-|[]]. auto.
  - destruct (list_eq_dec Bool.bool_dec k k0); simpl; [tauto|].
    intros [<-|H]; [tauto|]. destruct (IH H); tauto.
Qed.

Lemma add_count_NoDup (k : list bool) (counts : list (list bool * nat)) :
  NoDup (map fst counts) -> NoDup (map fst (add_count k counts)).
Proof.
  induction counts as [|[k0 c] rest IH]; simpl; intros Hnd.
  - repeat constructor. simpl. tauto.
  - inversion Hnd as [|? ? Hnotin Hrest]; subst.
    destruct (list_eq_dec Bool.bool_dec k k0) as [->|Hne]; simpl; constructor; auto.
    intros Hin. destruct (add_count_keys _ _ _ Hin) as [->|H]; [congruence | contradiction].
Qed.

Lemma add_count_Forall (m : nat) (k : list bool) (counts : list (list bool * nat)) :
  length k = m ->
  Forall (fun kc => length (fst kc) = m /\ 1 <= snd kc) counts ->
  Forall (fun kc => length (fst kc) = m /\ 1 <= snd kc) (add_count k counts).
Proof.
  intros Hk. induction counts as [|[k0 c] rest IH]; simpl; intros F.
  - constructor; [simpl; split; [exact Hk | lia] | constructor].
  - inversion F as [|? ? [Hl Hc] Frest]; subst.
    destruct (list_eq_dec Bool.bool_dec k k0); constructor; simpl; auto; lia.
Qed.

Lemma measure_loop_length (qs : list nat) (u : nat -> R) (k : nat) (st : QuantumState) :
  length (fst (measure_loop qs u k st)) = length qs.
Proof.
  revert k st. induction qs as [|q qs IH]; intros k st; [reflexivity|].
  cbn [measure_loop].
  specialize (IH (Datatypes.S k) (project_terms q (draw_bit (u k) (prob_one q st)) st)).
  destruct (measure_loop qs u (Datatypes.S k) _) as [bs st']. simpl in *. rewrite IH. reflexivity.
Qed.

Lemma sample_loop_counts (qs : list nat) (u : nat -> nat -> R) (shots : nat)
    (st : QuantumState) (counts : list (list bool * nat)) :
  NoDup (map fst counts) ->
  Forall (fun kc => length (fst kc) = length qs /\ 1 <= snd kc) counts ->
  fold_right Nat.add 0 (map snd (sample_loop qs u shots st counts)) =
    shots + fold_right Nat.add 0 (map snd counts) /\
  NoDup (map fst (sample_loop qs u shots st counts)) /\
  Forall (fun kc => length (fst kc) = length qs /\ 1 <= snd kc) (sample_loop qs u shots st counts).
Proof.
  revert counts. induction shots as [|s IH]; intros counts Hnd F; [simpl; auto|].
  cbn [sample_loop].
  destruct (IH (add_count (fst (measure_loop qs (u s) 0 st)) counts)) as [H1 [H2 H3]].
  - apply add_count_NoDup, Hnd.
  - apply add_count_Forall; [apply measure_loop_length | exact F].
  - rewrite H1, add_count_total. split; [lia | auto].
Qed.

End SampleCounts.

Section WitnessRuns.

Local Open Scope nat_scope.

Lemma counter_random_randbelow_ok : randbelow_ok counter_random.
Proof. intros g n Hn. simpl. apply Nat.mod_upper_bound. lia. Qed.

Lemma counter_random_sample2_ok : sample2_ok counter_random.
Proof.
  intros g n Hn. simpl.
  split; [apply Nat.mod_upper_bound; lia|]. split; [apply Nat.mod_upper_bound; lia|].
  replace (Datatypes.S g) with (g + 1) by lia.
  rewrite Nat.Div0.add_mod. rewrite (Nat.mod_small 1) by lia.
  pose proof (Nat.mod_upper_bound g n ltac:(lia)) as Hg.
  destruct (Nat.eq_dec (g mod n + 1) n) as [E|E].
  - rewrite E, Nat.Div0.mod_same. lia.
  - rewrite (Nat.mod_small (g mod n + 1)) by lia. lia.
Qed.

End WitnessRuns.

(** [assert_exp_value_match] passes exactly when [num_qubits >= 0] and,
    for every string of [num_qubits] letters from I, X, Y, Z, both Pauli
    objects are built, both expectation values are computed without raising
    and they differ by less than [tolerance]; a negative [num_qubits] never
    passes. *)
Theorem assert_exp_value_match_ok {NcPauli QkPauli : Type}
  (nc_from_str : string -> py_result NcPauli) (qk_pauli : string -> py_result QkPauli)
  (nc_exp : NcPauli -> py_result R) (qk_exp : QkPauli -> py_result R) (tolerance : R)
  (num_qubits : Z) :
  assert_exp_value_match nc_from_str qk_pauli nc_exp qk_exp tolerance num_qubits = PyOk tt <->
  (0 <= num_qubits)%Z /\
  forall ls, length ls = Z.to_nat num_qubits -> Forall (fun x => In x paulis) ls ->
    exists p q a b, nc_from_str (String.concat String.EmptyString ls) = PyOk p /\
                    qk_pauli (String.concat String.EmptyString ls) = PyOk q /\
                    nc_exp p = PyOk a /\ qk_exp q = PyOk b /\ Rabs (a - b) < tolerance.
Proof.
  unfold assert_exp_value_match.
  destruct (num_qubits <? 0)%Z eqn:En.
  - apply Z.ltb_lt in En. split; [discriminate | lia].
  - apply Z.ltb_ge in En. rewrite check_paulis_ok. split.
    + intros H. split; [exact En|]. intros ls Hl F. apply H.
      apply in_map. apply product_repeat_In. auto.
    + intros [_ H] s Hs. apply in_map_iff in Hs as [ls [<- Hls]].
      apply product_repeat_In in Hls as [Hl F]. exact (H ls Hl F).
Qed.

(** The loop of [assert_exp_value_match] on [n] qubits visits [4 ^ n]
    Pauli strings, pairwise distinct, and they are exactly the
    concatenations of [n] letters from I, X, Y, Z: no string is skipped
    and none is checked twice. *)
Theorem pauli_strings_enumeration (n : nat) :
  length (pauli_strings n) = (4 ^ n)%nat /\ NoDup (pauli_strings n) /\
  forall s, In s (pauli_strings n) <->
    exists ls, length ls = n /\ Forall (fun x => In x paulis) ls /\
               s = String.concat String.EmptyString ls.
Proof.
  unfold pauli_strings. split; [|split].
  - rewrite length_map, product_repeat_length. reflexivity.
  - apply NoDup_map_inj_on; [|apply product_repeat_NoDup, paulis_NoDup].
    intros x y Hx Hy E.
    apply product_repeat_In in Hx as [_ Fx]. apply product_repeat_In in Hy as [_ Fy].
    apply concat_single_chars_inj; [| |exact E].
    + eapply Forall_impl; [|exact Fx]. intros a Ha.
      pose proof paulis_single_chars as Hp. rewrite Forall_forall in Hp. apply Hp, Ha.
    + eapply Forall_impl; [|exact Fy]. intros a Ha.
      pose proof paulis_single_chars as Hp. rewrite Forall_forall in Hp. apply Hp, Ha.
  - intros s. rewrite in_map_iff. split.
    + intros [ls [<- Hls]]. apply product_repeat_In in Hls as [Hl F]. eauto.
    + intros [ls [Hl [F ->]]]. exists ls. split; [reflexivity|]. apply product_repeat_In. auto.
Qed.

(** The [k]-th Pauli string the loop checks spells [k] in base 4 on [n]
    digits with I, X, Y, Z for 0, 1, 2, 3, most significant digit first:
    the strings come in lexicographic order, the last letter changing
    fastest. *)
Theorem pauli_strings_order (n k : nat) :
  (k < 4 ^ n)%nat ->
  nth k (pauli_strings n) String.EmptyString =
  String.concat String.EmptyString (map (fun i => nth i paulis String.EmptyString) (digits 4 n k)).
Proof.
  intros Hk. unfold pauli_strings.
  rewrite (nth_indep _ _ (String.concat String.EmptyString []))
    by (rewrite length_map, product_repeat_length; exact Hk).
  rewrite map_nth, (product_repeat_nth _ _ _ String.EmptyString) by exact Hk.
  reflexivity.
Qed.

(** A successful [sample] returns counts that add up to [shots], with
    pairwise distinct outcomes, each outcome holding one bit per sampled
    qubit and each count at least 1. *)
Theorem sample_counts_total (qs : list nat) (shots : nat) (u : nat -> nat -> R)
    (st : QuantumState) (counts : list (list bool * nat)) :
  sample qs shots u st = Ok counts ->
  fold_right Nat.add 0%nat (map snd counts) = shots /\ NoDup (map fst counts) /\
  Forall (fun kc => length (fst kc) = length qs /\ (1 <= snd kc)%nat) counts.
Proof.
  unfold sample. intros H. destruct qs as [|q qs']; [discriminate|].
  destruct (qubits_in_range _ _ && nodupb _); [|discriminate].
  injection H as <-.
  destruct (sample_loop_counts (q :: qs') u shots st [] (NoDup_nil _) (Forall_nil _))
    as [H1 [H2 H3]].
  rewrite H1. simpl. rewrite Nat.add_0_r. auto.
Qed.

Lemma generate_qasm_gate_counts_witness :
  exists text g',
    generate_random_circuit_qasm counter_random 3 2 2 1 (Some 5%Z) 0%nat = PyOk (text, g') /\
    exists gates,
      text = String.concat nl (qasm_header 3 ++ map gate_line gates) /\
      length gates = 5%nat /\
      count_names SINGLE_QUBIT_CLIFFORDS gates = 2%nat /\
      count_names TWO_QUBIT_CLIFFORDS gates = 2%nat /\
      count_names T_TYPE_GATES gates = 1%nat.
Proof.
  do 2 eexists. split; [reflexivity|].
  eapply (generate_qasm_gate_counts counter_random 3 2 2 1 (Some 5%Z) 0%nat).
  - exact counter_random_randbelow_ok.
  - reflexivity.
Defined.

Lemma generate_qasm_well_formed_witness :
  exists text g',
    generate_random_circuit_qasm counter_random 3 2 2 1 (Some 5%Z) 0%nat = PyOk (text, g') /\
    exists gates,
      text = String.concat nl (qasm_header 3 ++ map gate_line gates) /\
      Forall (fun gi =>
        (In (fst gi) (SINGLE_QUBIT_CLIFFORDS ++ T_TYPE_GATES) /\
           exists q, snd gi = [q] /\ (q < Z.to_nat 3)%nat) \/
        (In (fst gi) TWO_QUBIT_CLIFFORDS /\
           exists q1 q2, snd gi = [q1; q2] /\ (q1 < Z.to_nat 3)%nat /\ (q2 < Z.to_nat 3)%nat /\
                         q1 <> q2)) gates.
Proof.
  do 2 eexists. split; [reflexivity|].
  eapply (generate_qasm_well_formed counter_random 3 2 2 1 (Some 5%Z) 0%nat).
  - exact counter_random_randbelow_ok.
  - exact counter_random_sample2_ok.
  - reflexivity.
Defined.

Lemma generate_qasm_line_count_witness :
  exists text g',
    generate_random_circuit_qasm counter_random 3 2 2 1 (Some 5%Z) 0%nat = PyOk (text, g') /\
    count_char nl_char text = 7%nat.
Proof.
  do 2 eexists. split; [reflexivity|].
  eapply (generate_qasm_line_count counter_random 3 2 2 1 (Some 5%Z) 0%nat).
  reflexivity.
Defined.

Lemma pauli_strings_order_witness :
  (6 < 4 ^ 2)%nat /\
  nth 6 (pauli_strings 2) String.EmptyString =
  String.concat String.EmptyString (map (fun i => nth i paulis String.EmptyString) (digits 4 2 6)).
Proof.
  split; [simpl; lia|].
  apply (pauli_strings_order 2 6). simpl. lia.
Defined.

Lemma sample_counts_total_witness :
  exists counts,
    sample [0%nat; 1%nat] 4 (fun _ _ => 0) state_000 = Ok counts /\
    fold_right Nat.add 0%nat (map snd counts) = 4%nat /\ NoDup (map fst counts) /\
    Forall (fun kc => length (fst kc) = 2%nat /\ (1 <= snd kc)%nat) counts.
Proof.
  eexists. split; [reflexivity|].
  apply (sample_counts_total [0%nat; 1%nat] 4 (fun _ _ => 0) state_000).
  reflexivity.
Defined.

Lemma check_amplitudes_ok (tolerance : R) (a b : list C) (idx : list nat) :
  check_amplitudes tolerance a b idx = PyOk tt <->
  forall i, In i idx -> Cabs (Csub (nth i a C0) (nth i b C0)) < tolerance.
Proof.
  induction idx as [|i idx IH]; simpl.
  - split; [intros _ i []|reflexivity].
  - destruct (Rlt_dec (Cabs (Csub (nth i a C0) (nth i b C0))) tolerance) as [Hlt|Hge].
    + rewrite IH. split.
      * intros H j [<-|Hj]; [exact Hlt | exact (H j Hj)].
      * intros H j Hj. apply H. right. exact Hj.
    + split; [discriminate|]. intros H. exfalso. apply Hge, H. left. reflexivity.
Qed.

(** [assert_statevector_match] passes exactly when the Qiskit data has
    [2 ^ num_qubits] entries, the length of the engine's statevector, and
    every amplitude of the engine's state lies within [tolerance] of the
    Qiskit amplitude at the same index; a length mismatch always fails. *)
Theorem assert_statevector_match_ok (tolerance : R) (st : QuantumState) (qiskit_data : list C) :
  assert_statevector_match tolerance st qiskit_data = PyOk tt <->
  length qiskit_data = (2 ^ st_num_qubits st)%nat /\
  forall x, (x < 2 ^ st_num_qubits st)%nat ->
    Cabs (Csub (represented (st_terms st) x) (nth x qiskit_data C0)) < tolerance.
Proof.
  unfold assert_statevector_match. cbv zeta. rewrite length_statevector.
  destruct (Nat.eqb_spec (2 ^ st_num_qubits st) (length qiskit_data)) as [E|E].
  - rewrite check_amplitudes_ok. split.
    + intros H. split; [symmetry; exact E|]. intros x Hx.
      rewrite <- nth_statevector by exact Hx. apply H. apply in_seq. lia.
    + intros [_ H] i Hi. apply in_seq in Hi.
      rewrite nth_statevector by lia. apply H. lia.
  - split; [discriminate|]. intros [Hl _]. congruence.
Qed.
